(** * manga_py_update: a shallow embedding of [manga_py_update.py]

    The script walks the children of a base directory, builds one [Comic]
    per child (resolving its source URL from [info.json] or from the
    [info.txt] entry of the most recently modified [*.cbz]), calls the
    external [manga-py] tool for each of them and collects the volumes that
    appeared.

    The embedding keeps the shape of the source: the module constants, the
    function [get_last_file], the classes [Comic] and [Library] with their
    methods under the source's names.  Python's side effects are threaded
    through a monad of state, exceptions and output: the state is a
    [world] (a file system and the state of whatever the external tool
    talks to), the output is the trace of observable actions ([click.echo]
    lines, archives opened, files written, tool invocations). *)

From stdpp Require Import gmap strings list fin_maps sorting.
From Stdlib Require Import ZArith Ascii.

Local Open Scope string_scope.
Local Open Scope list_scope.
Set Warnings "-register-all".
Arguments Ascii.eqb : simpl never.

(** ** Python values and exceptions *)

(** The exception classes the script can meet.  All of them derive from
    [Exception]; interpreter signals such as [KeyboardInterrupt] are not
    faults of the program and are left out. *)
Inductive exn :=
  | KeyError (key : string)
  | TypeError
  | JSONDecodeError
  | UnicodeDecodeError
  | BadZipFile
  | FileNotFoundError
  | FileExistsError
  | IndexError
  | CommandNotFound
  | ErrorReturnCode (code : Z)
  | OtherException (name : string).

Definition is_KeyError (e : exn) : bool :=
  match e with KeyError _ => true | _ => false end.

Definition is_JSONDecodeError (e : exn) : bool :=
  match e with JSONDecodeError => true | _ => false end.

(** [except Exception] *)
Definition is_Exception (e : exn) : bool := true.

(** What [json.load] can return, which is also what [self.url] can hold
    ([None] is JSON's [null]).  Numbers are integers; a dictionary is the
    list of its items. *)
Inductive pyval :=
  | PyNone
  | PyBool (b : bool)
  | PyInt (z : Z)
  | PyStr (s : string)
  | PyList (l : list pyval)
  | PyDict (items : list (string * pyval)).

(** Python's truth value, as tested by [if x] and [not x]. *)
Definition truthy (v : pyval) : bool :=
  match v with
  | PyNone => false
  | PyBool b => b
  | PyInt z => negb (z =? 0)%Z
  | PyStr s => negb (String.eqb s "")
  | PyList l => match l with [] => false | _ => true end
  | PyDict d => match d with [] => false | _ => true end
  end.

Inductive result (A : Type) :=
  | Ok (a : A)
  | Raise (e : exn).
Arguments Ok {A} a.
Arguments Raise {A} e.

(** ** Strings *)

(** [strip_prefix p s] is [Some r] when [s = p ++ r]. *)
Fixpoint strip_prefix (p s : string) : option string :=
  match p, s with
  | EmptyString, _ => Some s
  | String a p', String b s' =>
      if Ascii.eqb a b then strip_prefix p' s' else None
  | String _ _, EmptyString => None
  end.

(** [needle in hay] on two [str]. *)
Fixpoint str_contains (needle hay : string) : bool :=
  match strip_prefix needle hay with
  | Some _ => true
  | None =>
      match hay with
      | EmptyString => false
      | String _ hay' => str_contains needle hay'
      end
  end.

(** Name matching of [glob('*.cbz')]: the name ends with the suffix. *)
Definition ends_with (suffix s : string) : bool :=
  let n := String.length s in
  let k := String.length suffix in
  (k <=? n)%nat && String.eqb (String.substring (n - k) k s) suffix.

(** The part of [s] before its first newline: what the pattern's group
    captures, since a dot matches every character but the newline. *)
Fixpoint rest_of_line (s : string) : string :=
  match s with
  | EmptyString => EmptyString
  | String c s' =>
      if Ascii.eqb c "010"%char then EmptyString else String c (rest_of_line s')
  end.

(** [re.search] for the pattern [Site: ] followed by a group that takes
    the rest of the line, with [re.MULTILINE]; the result is [groups()[0]]
    of the match.  The pattern has no anchor, so the flag changes nothing: the
    leftmost occurrence of ["Site: "] wins, wherever it sits in its line. *)
Fixpoint re_search_site (s : string) : option string :=
  match strip_prefix "Site: " s with
  | Some r => Some (rest_of_line r)
  | None =>
      match s with
      | EmptyString => None
      | String _ s' => re_search_site s'
      end
  end.

(** [needle in v] for a [str] needle: substring test on a [str], element
    test on a list, key test on a dictionary, [TypeError] on anything that
    is not a container. *)
Definition py_in (needle : string) (v : pyval) : result bool :=
  match v with
  | PyStr s => Ok (str_contains needle s)
  | PyList l =>
      Ok (existsb (λ x, match x with
                        | PyStr s => String.eqb s needle
                        | _ => false
                        end) l)
  | PyDict d => Ok (existsb (λ kv, String.eqb (fst kv) needle) d)
  | PyNone | PyBool _ | PyInt _ => Raise TypeError
  end.

(** [d[key]] *)
Definition py_getitem (d : pyval) (key : string) : result pyval :=
  match d with
  | PyDict items =>
      match list_find (λ kv, fst kv = key) items with
      | Some (_, (_, v)) => Ok v
      | None => Raise (KeyError key)
      end
  | _ => Raise TypeError
  end.

(** ** Sorting *)

(** [sorted(l, key=..., reverse=...)] on a list whose keys are already
    computed.  Python's sort is stable, also with [reverse=True], and a
    stable sort has one possible result; insertion from the right computes
    it. *)
Section sorted.
Context {A : Type}.

Definition goes_after (reverse : bool) (x y : Z * A) : bool :=
  if reverse then (fst x <? fst y)%Z else (fst y <? fst x)%Z.

(** [x] stood before every element of [l] in the input: it passes the
    elements that must come strictly before it and stops at the first
    one that need not. *)
Fixpoint sorted_insert (reverse : bool) (x : Z * A) (l : list (Z * A))
  : list (Z * A) :=
  match l with
  | [] => [x]
  | y :: l' =>
      if goes_after reverse x y then y :: sorted_insert reverse x l'
      else x :: y :: l'
  end.

Definition sorted (reverse : bool) (l : list (Z * A)) : list (Z * A) :=
  foldr (sorted_insert reverse) [] l.
End sorted.

(** ** The file system *)

(** A title folder is [base / name]; a volume is [folder / file name]. *)
Definition Path : Type := string * string.
Definition Volume : Type := Path * string.

(** What [zipfile] makes of a file: not an archive at all ([ZipFile(...)]
    raises [BadZipFile]), or an archive with or without an [info.txt]
    member, whose bytes decode to a text or do not. *)
Inductive info_entry :=
  | InfoUndecodable
  | InfoText (text : string).

Inductive archive :=
  | NotAZip
  | Zip (info_txt : option info_entry).

Record file := { f_mtime : Z; f_archive : archive }.

(** What [json.load] makes of [info.json]: a parse error, or a value.
    [json.dump] writes a text that loads back as the value dumped. *)
Inductive config_file :=
  | Malformed
  | Document (v : pyval).

Record folder := {
  d_config : option config_file;            (* [None]: no [info.json] *)
  d_files : list (string * file);           (* the other entries, as listed *)
}.

(** A child of a base directory, told apart the way the script does: by
    [is_dir()] (which follows links), [is_symlink()] and [stat()] (which
    follows links and fails on a dangling one).  A link to a directory
    carries the directory it resolves to. *)
Inductive node :=
  | Dir (link : bool) (mtime : Z) (d : folder)
  | NonDir (link : bool) (mtime : Z)
  | Dangling.

Record filesystem := {
  nodes : gmap Path node;
  listing : gmap string (list string);      (* [base_dir.glob("*")], as listed *)
  clock : Z;
}.

(** ** Module constants *)

Definition PREFERRED_ARGS : list string :=
  ["--cbz"; "--zero-fill"; "--rename-pages"; "--no-webp";
   "--show-current-chapter-info"].
Definition PREFERRED_LANG : string := "gb".
Definition SKIPPED : list string := [].
Definition SINGLE_COMIC_CONFIG_FILE_NAME : string := "info.json".

(** ** The external tool and the trace *)

(** The arguments of [sh.manga_py(...)]; [_in] is the line typed on the
    tool's standard input. *)
Record fetch_args := {
  destination : string;
  name : string;
  fetch_url : pyval;
  options : list string;
  _in : option string;
}.

Inductive message :=
  | MsgConfigException (e : exn)      (* "Excepcion reading config file" *)
  | MsgZipException (e : exn)         (* "Excepcion reading zip file" *)
  | MsgSymlink (p : Path)             (* "Symlink: ..." *)
  | MsgNoUrl                          (* "No url available" *)
  | MsgDownloadException (e : exn)    (* "Excepcion downloading comic" *)
  | MsgFolder (p : Path)
  | MsgUrl (url : pyval) (last_file : option Volume) (url_from_cbz : bool)
  | MsgEmptyFolder                    (* "No *.cbz here!!!" *)
  | MsgDownloadedComics (present max_num : nat)
  | MsgDownloadedByComic (num_previous : Z) (num_now num_tot : nat)
  | MsgDownloadedTotal (total : gset Volume)
  | MsgSkipped (url : pyval).

Inductive event :=
  | Echo (m : message)
  | ZipOpen (f : option Volume)
  | JsonDump (p : Path) (doc : pyval) (sort_keys : bool) (indent : nat)
  | Mkdir (p : Path)
  | MangaPy (a : fetch_args)
  | LoggerCatch (e : exn).

(** What the script does not decide: the external tool, which may change
    the file system in any way and may fail, and the order in which Python
    iterates over a [set] of paths (it depends on the hash seed). *)
Class Platform := {
  Remote : Type;
  manga_py : fetch_args → filesystem → Remote → filesystem * Remote * option exn;
  set_iter : gset Volume → list Volume;
}.

Class PlatformLaws `{Platform} : Prop :=
  set_iter_elements : ∀ s : gset Volume, set_iter s ≡ₚ elements s.

Record world `{Platform} := {
  fs : filesystem;
  remote : Remote;
}.

(** ** The monad of the script's effects

    A computation reads and changes the world and either returns or
    raises; beside its result it gives the world it leaves and the trace of
    what it did, in order.  What it did before raising stays done. *)
Section monad.
Context `{Platform}.

Definition M (A : Type) : Type := world → result A * world * list event.

Definition ret {A} (a : A) : M A := λ w, (Ok a, w, []).

Definition bind {A B} (m : M A) (f : A → M B) : M B :=
  λ w, match m w with
       | (Ok a, w', t) => let '(r, w'', t') := f a w' in (r, w'', t ++ t')
       | (Raise e, w', t) => (Raise e, w', t)
       end.

Definition raise {A} (e : exn) : M A := λ w, (Raise e, w, []).

(** [try: body  except <classes> as e: handler] *)
Definition try_except {A} (body : M A) (classes : exn → bool)
    (handler : exn → M A) : M A :=
  λ w, match body w with
       | (Ok a, w', t) => (Ok a, w', t)
       | (Raise e, w', t) =>
           if classes e then
             let '(r, w'', t') := handler e w' in (r, w'', t ++ t')
           else (Raise e, w', t)
       end.

Definition lift {A} (r : result A) : M A := λ w, (r, w, []).

Definition get_fs : M filesystem := λ w, (Ok (fs w), w, []).

Definition put_fs (f : filesystem) : M unit :=
  λ w, (Ok (), {| fs := f; remote := remote w |}, []).

Definition emit (e : event) : M unit := λ w, (Ok (), w, [e]).

(** [click.echo(click.style(...))] *)
Definition echo (m : message) : M unit := emit (Echo m).
End monad.

Global Instance M_ret `{Platform} : MRet M := @ret _.
Global Instance M_bind `{Platform} : MBind M := λ A B f m, bind m f.

(** ** [pathlib], [json], [zipfile] and [sh] on the modelled world *)

Definition empty_folder : folder := {| d_config := None; d_files := [] |}.

Definition folder_of (f : filesystem) (p : Path) : option folder :=
  match nodes f !! p with
  | Some (Dir _ _ d) => Some d
  | _ => None
  end.

Fixpoint lookup_file (n : string) (l : list (string * file)) : option file :=
  match l with
  | [] => None
  | (n', x) :: l' => if String.eqb n' n then Some x else lookup_file n l'
  end.

Definition volume_file (f : filesystem) (v : Volume) : option file :=
  match folder_of f v.1 with
  | Some d => lookup_file v.2 (d_files d)
  | None => None
  end.

(** The [info.json] of a folder, if the folder and the file are there. *)
Definition config_of (f : filesystem) (p : Path) : option config_file :=
  match folder_of f p with
  | Some d => d_config d
  | None => None
  end.

(** The file [str(last_file)] names; [""] names none. *)
Definition file_named (f : filesystem) (last_file : option Volume) : option file :=
  match last_file with
  | Some v => volume_file f v
  | None => None
  end.

(** The paths [p.glob('*.cbz')] yields: the entries of the folder itself
    whose name ends in [.cbz], in listing order. *)
Definition glob_cbz (f : filesystem) (p : Path) : list Volume :=
  match folder_of f p with
  | Some d =>
      (λ nf : string * file, (p, nf.1))
        <$> filter (λ nf : string * file, ends_with ".cbz" nf.1 = true) (d_files d)
  | None => []
  end.

Definition set_nodes (f : filesystem) (n : gmap Path node) : filesystem :=
  {| nodes := n; listing := listing f; clock := clock f |}.

Section primitives.
Context `{Platform}.

Definition is_dir (p : Path) : M bool :=
  f ← get_fs;
  mret (match nodes f !! p with Some (Dir _ _ _) => true | _ => false end).

Definition is_symlink (p : Path) : M bool :=
  f ← get_fs;
  mret (match nodes f !! p with
        | Some (Dir l _ _) | Some (NonDir l _) => l
        | Some Dangling => true
        | None => false
        end).

(** [p.stat().st_mtime] of a child of a base directory *)
Definition stat_mtime (p : Path) : M Z :=
  f ← get_fs;
  match nodes f !! p with
  | Some (Dir _ m _) | Some (NonDir _ m) => mret m
  | Some Dangling | None => raise FileNotFoundError
  end.

(** [f.stat().st_mtime] of a volume *)
Definition stat_volume (v : Volume) : M Z :=
  f ← get_fs;
  match volume_file f v with
  | Some x => mret (f_mtime x)
  | None => raise FileNotFoundError
  end.

(** [p.mkdir()]: the parent is the base directory being walked. *)
Definition mkdir (p : Path) : M unit :=
  f ← get_fs;
  match nodes f !! p with
  | None =>
      put_fs (set_nodes f (<[p := Dir false (clock f) empty_folder]> (nodes f)));;
      emit (Mkdir p)
  | Some _ => raise FileExistsError
  end.

(** [list(base_dir.glob("*"))] *)
Definition glob_star (base : string) : M (list Path) :=
  f ← get_fs;
  mret ((λ n, (base, n)) <$> default [] (listing f !! base)).

(** [set(p.glob('*.cbz'))] *)
Definition glob_cbz_set (p : Path) : M (gset Volume) :=
  f ← get_fs; mret (list_to_set (glob_cbz f p)).

(** [config_file.exists()]; the config file of [p] is
    [p / SINGLE_COMIC_CONFIG_FILE_NAME]. *)
Definition config_exists (p : Path) : M bool :=
  f ← get_fs;
  mret (match config_of f p with Some _ => true | None => false end).

(** [with config_file.open() as f: json.load(f)] *)
Definition json_load (p : Path) : M pyval :=
  f ← get_fs;
  match config_of f p with
  | Some (Document v) => mret v
  | Some Malformed => raise JSONDecodeError
  | None => raise FileNotFoundError
  end.

(** [with config_file.open("w") as f: json.dump(doc, f, sort_keys=...,
    indent=...)].  Creating the file touches the folder; rewriting it does
    not. *)
Definition json_dump (doc : pyval) (p : Path) (sort_keys : bool)
    (indent : nat) : M unit :=
  f ← get_fs;
  match nodes f !! p with
  | Some (Dir l m d) =>
      let m' := match d_config d with None => clock f | Some _ => m end in
      let d' := {| d_config := Some (Document doc); d_files := d_files d |} in
      put_fs (set_nodes f (<[p := Dir l m' d']> (nodes f)));;
      emit (JsonDump p doc sort_keys indent)
  | _ => raise FileNotFoundError
  end.

(** [zipfile.ZipFile(str(last_file))]: what is opened is the list of
    members, of which only [info.txt] matters.  [last_file] is [""] when
    there is no volume. *)
Definition ZipFile (last_file : option Volume) : M (option info_entry) :=
  emit (ZipOpen last_file);;
  f ← get_fs;
  match file_named f last_file with
  | Some x =>
      match f_archive x with
      | Zip info_txt => mret info_txt
      | NotAZip => raise BadZipFile
      end
  | None => raise FileNotFoundError
  end.

(** [zip_file.open('info.txt')] then [.read()] *)
Definition zip_open_info (z : option info_entry) : M info_entry :=
  match z with
  | Some e => mret e
  | None => raise (KeyError "info.txt")
  end.

(** [content.decode()] *)
Definition decode (e : info_entry) : M string :=
  match e with
  | InfoText t => mret t
  | InfoUndecodable => raise UnicodeDecodeError
  end.

(** [sh.manga_py(...)]: runs the tool to its end; a failure of the call
    comes back as an exception. *)
Definition run_manga_py (a : fetch_args) : M unit :=
  λ w, let '(f', r', fault) := manga_py a (fs w) (remote w) in
       let w' := {| fs := f'; remote := r' |} in
       match fault with
       | None => (Ok (), w', [])
       | Some e => (Raise e, w', [])
       end.

Definition sh_manga_py (a : fetch_args) : M unit :=
  emit (MangaPy a);; run_manga_py a.
End primitives.

(** ** [get_last_file] *)

Section get_last_file.
Context `{Platform}.

(** The keys [sorted] computes before it compares anything; a key that
    raises ends the sort. *)
Fixpoint with_keys {A} (key : A → M Z) (l : list A) : M (list (Z * A)) :=
  match l with
  | [] => mret []
  | x :: l' =>
      k ← key x;
      r ← with_keys key l';
      mret ((k, x) :: r)
  end.

(** Returns last modified file from list of paths; [None] stands for the
    [""] returned on an empty set. *)
Definition get_last_file (paths : gset Volume) : M (option Volume) :=
  if decide (paths ≠ ∅) then
    keyed ← with_keys stat_volume (set_iter paths);
    match last (sorted false keyed) with
    | Some kv => mret (Some kv.2)
    | None => raise IndexError
    end
  else mret None.
End get_last_file.

(** ** [class Comic]: comics contained in a folder *)

Module Comic.
(** The attributes of a [Comic].  [config_file] is [path / info.json] and
    is addressed through [path]; the back reference [library] is never
    read. *)
Record t := {
  path : Path;
  initial_volumes : gset Volume;
  last_file : option Volume;
  url : pyval;
  url_from_cbz : bool;
  downloaded_volumes : gset Volume;
}.

Definition set_url (self : t) (u : pyval) : t :=
  {| path := path self; initial_volumes := initial_volumes self;
     last_file := last_file self; url := u;
     url_from_cbz := url_from_cbz self;
     downloaded_volumes := downloaded_volumes self |}.

Definition set_url_from_cbz (self : t) (b : bool) : t :=
  {| path := path self; initial_volumes := initial_volumes self;
     last_file := last_file self; url := url self;
     url_from_cbz := b;
     downloaded_volumes := downloaded_volumes self |}.

Definition set_downloaded_volumes (self : t) (v : gset Volume) : t :=
  {| path := path self; initial_volumes := initial_volumes self;
     last_file := last_file self; url := url self;
     url_from_cbz := url_from_cbz self;
     downloaded_volumes := v |}.

Section methods.
Context `{Platform}.

Definition _get_url_from_config (self : t) : M t :=
  present ← config_exists (path self);
  if present : bool then
    try_except
      (comic_config ← json_load (path self);
       u ← lift (py_getitem comic_config "url");
       mret (set_url self u))
      (λ e, is_KeyError e || is_JSONDecodeError e)
      (λ e, echo (MsgConfigException e);; mret self)
  else mret self.

Definition _get_url_from_cbz (self : t) : M t :=
  try_except
    (zip_file ← ZipFile (last_file self);
     zip_file_info ← zip_open_info zip_file;
     content ← decode zip_file_info;
     match re_search_site content with
     | Some group => mret (set_url_from_cbz (set_url self (PyStr group)) true)
     | None => mret self
     end)
    is_KeyError
    (λ e, echo (MsgZipException e);; mret self).

Definition _get_url (self : t) : M t :=
  self ← _get_url_from_config self;
  if negb (truthy (url self)) && bool_decide (initial_volumes self ≠ ∅) then
    self ← _get_url_from_cbz self;
    if truthy (url self) then
      json_dump (PyDict [("url", url self)]) (path self) true 4;;
      mret self
    else mret self
  else mret self.

Definition _get_actual_comic_volumes (self : t) : M (gset Volume) :=
  d ← is_dir (path self);
  if d : bool then glob_cbz_set (path self)
  else
    l ← is_symlink (path self);
    if l : bool then
      echo (MsgSymlink (path self));;
      mret ∅
    else
      mkdir (path self);;
      mret ∅.

Definition __init__ (path : Path) : M t :=
  let self := {| path := path; initial_volumes := ∅; last_file := None;
                 url := PyNone; url_from_cbz := false;
                 downloaded_volumes := ∅ |} in
  volumes ← _get_actual_comic_volumes self;
  last ← get_last_file volumes;
  let self := {| path := path; initial_volumes := volumes;
                 last_file := last; url := PyNone; url_from_cbz := false;
                 downloaded_volumes := ∅ |} in
  self ← _get_url self;
  mret (set_downloaded_volumes self ∅).

Definition _download_comic (self : t) : M unit :=
  (if negb (truthy (url self)) then echo MsgNoUrl else mret ());;
  mangadex ← lift (py_in "mangadex" (url self));
  let extra_args := if mangadex : bool then Some PREFERRED_LANG else None in
  try_except
    (sh_manga_py {| destination := (path self).1; name := (path self).2;
                    fetch_url := url self; options := PREFERRED_ARGS;
                    _in := extra_args |})
    is_Exception
    (λ e, echo (MsgDownloadException e)).

(** Check for new comics and download if possible.  The line that
    reports the time spent reads the wall clock and is left out. *)
Definition update (self : t) : M t :=
  echo (MsgFolder (path self));;
  if bool_decide (initial_volumes self = ∅) then
    echo MsgEmptyFolder;;
    mret self
  else
    echo (MsgUrl (url self) (last_file self) (url_from_cbz self));;
    _download_comic self;;
    volumes ← _get_actual_comic_volumes self;
    mret (set_downloaded_volumes self (volumes ∖ initial_volumes self)).
End methods.
End Comic.

(** ** [class Library]: folder containing one comic per subfolder *)

Module Library.
Record t := {
  base_dirs : list string;
  comics : list Comic.t;
  downloaded_volumes : gset Volume;
}.

(** [any(word in url for word in SKIPPED)]: the generator is consumed up
    to the first hit. *)
Fixpoint any_in (words : list string) (url : pyval) : result bool :=
  match words with
  | [] => Ok false
  | word :: words' =>
      match py_in word url with
      | Ok true => Ok true
      | Ok false => any_in words' url
      | Raise e => Raise e
      end
  end.

Section methods.
Context `{Platform}.

(** [for path in sorted(...): self.comics.append(Comic(...))] *)
Fixpoint append_comics (paths : list Path) (comics : list Comic.t)
  : M (list Comic.t) :=
  match paths with
  | [] => mret comics
  | path :: paths' =>
      comic ← Comic.__init__ path;
      append_comics paths' (comics ++ [comic])
  end.

(** The children of [base_dir], most recently modified first. *)
Definition discover (base_dir : string) : M (list Path) :=
  children ← glob_star base_dir;
  keyed ← with_keys stat_mtime children;
  mret ((sorted true keyed).*2).

(** [for base_dir in self.base_dirs: ...] *)
Fixpoint walk (base_dirs : list string) (comics : list Comic.t)
  : M (list Comic.t) :=
  match base_dirs with
  | [] => mret comics
  | base_dir :: base_dirs' =>
      paths ← discover base_dir;
      comics ← append_comics paths comics;
      walk base_dirs' comics
  end.

Definition __init__ (base_dirs : list string) : M t :=
  comics ← walk base_dirs [];
  mret {| base_dirs := base_dirs; comics := comics;
          downloaded_volumes := ∅ |}.

Definition _needs_skip (url : pyval) : M bool :=
  skip ← lift (any_in SKIPPED url);
  (if skip : bool then echo (MsgSkipped url) else mret ());;
  mret skip.

Definition _msg_downloaded_by_comic (now total : gset Volume) : M unit :=
  let num_tot := size total in
  let num_now := size now in
  let num_previous := (Z.of_nat num_tot - Z.of_nat num_now)%Z in
  echo (MsgDownloadedByComic num_previous num_now num_tot).

(** [for num, comic in enumerate(self.comics, start=1): ...]; [done]
    holds the comics already visited, [total] is
    [self.downloaded_volumes]. *)
Fixpoint for_comics (max_num num : nat) (todo done : list Comic.t)
    (total : gset Volume) : M (list Comic.t * gset Volume) :=
  match todo with
  | [] => mret (done, total)
  | comic :: todo' =>
      echo (MsgDownloadedComics num max_num);;
      skip ← _needs_skip (Comic.url comic);
      if skip : bool then
        for_comics max_num (S num) todo' (done ++ [comic]) total
      else
        comic ← Comic.update comic;
        let total := total ∪ Comic.downloaded_volumes comic in
        _msg_downloaded_by_comic (Comic.downloaded_volumes comic) total;;
        for_comics max_num (S num) todo' (done ++ [comic]) total
  end.

(** Check all comics for updates *)
Definition update (self : t) : M t :=
  let max_num := length (comics self) in
  r ← for_comics max_num 1 (comics self) [] (downloaded_volumes self);
  echo (MsgDownloadedTotal r.2);;
  mret {| base_dirs := base_dirs self; comics := r.1;
          downloaded_volumes := r.2 |}.
End methods.
End Library.

(** [update_comics], the command: [logger.catch] logs whatever escapes. *)
Definition update_comics `{Platform} (path : string) : M unit :=
  try_except
    (library ← Library.__init__ [path];
     Library.update library;;
     mret ())
    is_Exception
    (λ e, emit (LoggerCatch e)).

(** * The vocabulary of the properties *)

Definition newline : string := String "010"%char "".

(** The text has ["Site: "] for the first time right before [u], and [u] is
    the rest of that line. *)
Definition first_site_line (text u : string) : Prop :=
  ∃ pre rest,
    text = pre +:+ "Site: " +:+ u +:+ rest
    ∧ str_contains "Site: " pre = false
    ∧ str_contains newline u = false
    ∧ (rest = "" ∨ ∃ r, rest = newline +:+ r).

(** The order [sorted] puts two keys in. *)
Definition key_le {A} (reverse : bool) (x y : Z * A) : Prop :=
  if reverse then (y.1 ≤ x.1)%Z else (x.1 ≤ y.1)%Z.

(** What [_get_actual_comic_volumes] finds in a folder that is there. *)
Definition scan (f : filesystem) (p : Path) : gset Volume :=
  list_to_set (glob_cbz f p).

Definition volume_mtime (f : filesystem) (v : Volume) : Z :=
  from_option f_mtime 0%Z (volume_file f v).

(** [v] is a volume of [s] than which none is more recent. *)
Definition most_recent (f : filesystem) (s : gset Volume) (v : Volume) : Prop :=
  v ∈ s ∧ ∀ v', v' ∈ s → (volume_mtime f v' ≤ volume_mtime f v)%Z.

(** The file [get_last_file] picks: the last of the most recent ones in
    the order the set is iterated in. *)
Definition last_of `{Platform} (f : filesystem) (s : gset Volume) : option Volume :=
  if decide (s ≠ ∅) then
    snd <$> last (sorted false ((λ v, (volume_mtime f v, v)) <$> set_iter s))
  else None.

(** The comic as [__init__] has it when it calls [_get_url] in a folder
    that is there. *)
Definition unresolved `{Platform} (f : filesystem) (p : Path) : Comic.t :=
  {| Comic.path := p;
     Comic.initial_volumes := scan f p;
     Comic.last_file := last_of f (scan f p);
     Comic.url := PyNone;
     Comic.url_from_cbz := false;
     Comic.downloaded_volumes := ∅ |}.

(** The comic [__init__] returns when [info.json] gave the URL [v]. *)
Definition configured `{Platform} (f : filesystem) (p : Path) (v : pyval) : Comic.t :=
  {| Comic.path := p;
     Comic.initial_volumes := scan f p;
     Comic.last_file := last_of f (scan f p);
     Comic.url := v;
     Comic.url_from_cbz := false;
     Comic.downloaded_volumes := ∅ |}.

(** The comic [__init__] returns when the URL [u] came from an archive. *)
Definition inferred `{Platform} (f : filesystem) (p : Path) (u : string) : Comic.t :=
  {| Comic.path := p;
     Comic.initial_volumes := scan f p;
     Comic.last_file := last_of f (scan f p);
     Comic.url := PyStr u;
     Comic.url_from_cbz := true;
     Comic.downloaded_volumes := ∅ |}.

(** The file system after [doc] was dumped to the [info.json] of the
    folder [d] at [p]. *)
Definition with_config (f : filesystem) (p : Path) (l : bool) (m : Z)
    (d : folder) (doc : pyval) : filesystem :=
  set_nodes f
    (<[p := Dir l (match d_config d with None => clock f | Some _ => m end)
              {| d_config := Some (Document doc); d_files := d_files d |}]>
       (nodes f)).

(** The same file system with the [info.json] of [p] removed. *)
Definition forget_config (f : filesystem) (p : Path) : filesystem :=
  set_nodes f
    (alter (λ n, match n with
                 | Dir l m d => Dir l m {| d_config := None; d_files := d_files d |}
                 | _ => n
                 end) p (nodes f)).

(** The most recent volumes of the folder all carry an [info.txt] whose
    first [Site: ] line gives [u]. *)
Definition names_source `{Platform} (f : filesystem) (p : Path) (u : string) : Prop :=
  ∀ v, most_recent f (scan f p) v →
       ∃ x text, volume_file f v = Some x
                 ∧ f_archive x = Zip (Some (InfoText text))
                 ∧ first_site_line text u.

(** Building the comic of [p] in [w] infers [u] from a most recent volume
    and dumps it at once; [info.json] then holds it, and building the comic
    again takes [u] from there. *)
Definition infers_and_persists `{Platform} (w : world) (p : Path) (u : string) : Prop :=
  ∃ c w' last,
    most_recent (fs w) (scan (fs w) p) last
    ∧ Comic.__init__ p w
      = (Ok c, w', [ZipOpen (Some last);
                    JsonDump p (PyDict [("url", PyStr u)]) true 4])
    ∧ Comic.url c = PyStr u
    ∧ Comic.url_from_cbz c = true
    ∧ config_of (fs w') p = Some (Document (PyDict [("url", PyStr u)]))
    ∧ ∃ c', Comic.__init__ p w' = (Ok c', w', [])
            ∧ Comic.url c' = PyStr u
            ∧ Comic.url_from_cbz c' = false.

(** The world in which the folder [p] has lost its [info.json]. *)
Definition without_config `{Platform} (w : world) (p : Path) : world :=
  {| fs := forget_config (fs w) p; remote := remote w |}.

(** The arguments [_download_comic] calls the tool with for a comic whose
    URL is the string [u]. *)
Definition call_for (self : Comic.t) (u : string) : fetch_args :=
  {| destination := (Comic.path self).1;
     name := (Comic.path self).2;
     fetch_url := PyStr u;
     options := PREFERRED_ARGS;
     _in := if str_contains "mangadex" u then Some PREFERRED_LANG else None |}.

(** Two states of one comic between which resolution has run: only [url]
    and [url_from_cbz] may differ. *)
Definition same_title (self self' : Comic.t) : Prop :=
  Comic.path self' = Comic.path self
  ∧ Comic.initial_volumes self' = Comic.initial_volumes self
  ∧ Comic.last_file self' = Comic.last_file self
  ∧ Comic.downloaded_volumes self' = Comic.downloaded_volumes self.

(** The total the loop of [Library.update] builds from the comics it has
    updated, one [|=] after the other. *)
Definition accumulate (total : gset Volume) (comics : list Comic.t) : gset Volume :=
  foldl (λ acc c, acc ∪ Comic.downloaded_volumes c) total comics.

(** A comic before and after the loop visited it: the same title, and a
    comic without initial volumes is left as it was. *)
Definition visited (c c' : Comic.t) : Prop :=
  Comic.path c' = Comic.path c
  ∧ Comic.initial_volumes c' = Comic.initial_volumes c
  ∧ (Comic.initial_volumes c = ∅ → c' = c).

(** The children of a base directory, as [glob("*")] lists them. *)
Definition children (f : filesystem) (base : string) : list Path :=
  (λ n, (base, n)) <$> default [] (listing f !! base).

(** [p.stat().st_mtime], when [stat] succeeds. *)
Definition stat_of (f : filesystem) (p : Path) : option Z :=
  match nodes f !! p with
  | Some (Dir _ m _) | Some (NonDir _ m) => Some m
  | Some Dangling | None => None
  end.

Definition node_mtime (f : filesystem) (p : Path) : Z :=
  default 0%Z (stat_of f p).

(** An element with the key [sorted] sorts it by. *)
Definition with_key {A} (key : A → Z) (x : A) : Z * A := (key x, x).

(** The order C6 states: among the paths, one touched at the same time as
    a later one has the smaller or the same name. *)
Definition ties_by_name (f : filesystem) (paths : list Path) : Prop :=
  ∀ i j x y, (i < j)%nat → paths !! i = Some x → paths !! j = Some y →
             node_mtime f x = node_mtime f y → String.leb x.2 y.2 = true.

(** The comic [__init__] builds for a path that is a link to something
    that is not a directory. *)
Definition unfetched (p : Path) : Comic.t :=
  {| Comic.path := p;
     Comic.initial_volumes := ∅;
     Comic.last_file := None;
     Comic.url := PyNone;
     Comic.url_from_cbz := false;
     Comic.downloaded_volumes := ∅ |}.

(** What may be seen of the construction of the comic of [p]: lines
    echoed, archives opened, and a directory made or a record dumped at
    [p] itself. *)
Definition construction_event (p : Path) (e : event) : Prop :=
  match e with
  | Echo _ | ZipOpen _ => True
  | JsonDump q _ _ _ | Mkdir q => q = p
  | MangaPy _ | LoggerCatch _ => False
  end.

(** Between [w] and [w'] nothing changed but, at most, the node of [p]. *)
Definition untouched_outside `{Platform} (p : Path) (w w' : world) : Prop :=
  remote w' = remote w
  ∧ listing (fs w') = listing (fs w)
  ∧ clock (fs w') = clock (fs w)
  ∧ ∀ q, q ≠ p → nodes (fs w') !! q = nodes (fs w) !! q.

(** A computation that keeps to the folder [p]. *)
Definition local_to `{Platform} {A} (p : Path) (m : M A) : Prop :=
  ∀ w r w' t,
    m w = (r, w', t) → untouched_outside p w w' ∧ Forall (construction_event p) t.

(** An event that is not a write of [info.json]. *)
Definition no_dump (e : event) : Prop :=
  match e with
  | JsonDump _ _ _ _ => False
  | _ => True
  end.

(** The calls of the tool in a trace, in the order they were made. *)
Definition fetches (t : list event) : list fetch_args :=
  omap (λ e, match e with MangaPy a => Some a | _ => None end) t.

(** The call [_download_comic] makes for a comic, whatever its URL is. *)
Definition request (c : Comic.t) : fetch_args :=
  {| destination := (Comic.path c).1;
     name := (Comic.path c).2;
     fetch_url := Comic.url c;
     options := PREFERRED_ARGS;
     _in := match py_in "mangadex" (Comic.url c) with
            | Ok true => Some PREFERRED_LANG
            | _ => None
            end |}.

(** The comics that had volumes when they were constructed. *)
Definition with_volumes (cs : list Comic.t) : list Comic.t :=
  filter (λ c, Comic.initial_volumes c ≠ ∅) cs.

(** The comics [cs] updated one after the other from [w]: each by
    [Comic.update], in the world the update before it left. *)
Inductive updated_from `{Platform}
  : world → list Comic.t → list Comic.t → world → Prop :=
  | updated_nil (w : world) : updated_from w [] [] w
  | updated_cons (w : world) (c c' : Comic.t) (w1 : world) (t : list event)
      (cs cs' : list Comic.t) (w' : world) :
      Comic.update c w = (Ok c', w1, t) →
      updated_from w1 cs cs' w' →
      updated_from w (c :: cs) (c' :: cs') w'.

(** * Worlds to run the script on *)

(** A tool that changes the file system as told and fails as told, on a
    platform that iterates over a set in the order of [elements]. *)
Definition scripted (effect : fetch_args → filesystem → filesystem)
    (fault : option exn) : Platform :=
  {| Remote := unit;
     manga_py := λ a f r, (effect a f, r, fault);
     set_iter := elements |}.

(** A tool that finds nothing new. *)
Definition idle : Platform := scripted (λ _ f, f) None.

Definition world_of (P : Platform) (f : filesystem) (r : @Remote P) : @world P :=
  @Build_world P f r.

(** The file system with the one base directory [lib] and the given
    children, listed in the given order. *)
Definition library (children : list (string * node)) : filesystem :=
  {| nodes := list_to_map ((λ c : string * node, (("lib", c.1), c.2)) <$> children);
     listing := {[ "lib" := children.*1 ]};
     clock := 1000 |}.

Definition volume (mtime : Z) (a : archive) : file :=
  {| f_mtime := mtime; f_archive := a |}.

Definition with_info (text : string) : archive := Zip (Some (InfoText text)).

(** A title with a configuration that names its source. *)
Definition configured_folder : folder :=
  {| d_config := Some (Document (PyDict [("url", PyStr "https://example.test/foo")]));
     d_files := [("v1.cbz", volume 1 (with_info "Site: https://example.test/bar"))] |}.

(** A title whose configuration has an empty [url]. *)
Definition emptied_folder : folder :=
  {| d_config := Some (Document (PyDict [("url", PyStr "")]));
     d_files := [("v1.cbz", volume 1 (with_info "Site: https://example.test/bar"))] |}.

(** A title without configuration; the newer volume names the source, on
    the second line of its [info.txt]. *)
Definition inferable_folder : folder :=
  {| d_config := None;
     d_files :=
       [("v1.cbz", volume 1 (with_info "Site: https://example.test/old"));
        ("v2.cbz", volume 2 (with_info ("Title: Foo" +:+ newline +:+
                                        "Site: https://example.test/foo" +:+ newline)));
        ("cover.png", volume 3 NotAZip)] |}.

Definition foo : Path := ("lib", "foo").

Definition configured_world : @world idle :=
  world_of idle (library [("foo", Dir false 5 configured_folder)]) tt.

Definition emptied_world : @world idle :=
  world_of idle (library [("foo", Dir false 5 emptied_folder)]) tt.

Definition inferable_world : @world idle :=
  world_of idle (library [("foo", Dir false 5 inferable_folder)]) tt.


Definition bare_folder : folder :=
  {| d_config := None; d_files := [("v1.cbz", volume 1 (Zip None))] |}.

Definition broken_folder : folder :=
  {| d_config := None; d_files := [("v1.cbz", volume 1 NotAZip)] |}.


Definition bare_world : @world idle :=
  world_of idle (library [("foo", Dir false 5 bare_folder)]) tt.

Definition broken_world : @world idle :=
  world_of idle (library [("foo", Dir false 5 broken_folder)]) tt.

(** A title without configuration whose volume has a [Site: ] line with
    nothing after it. *)
Definition blank_folder : folder :=
  {| d_config := None;
     d_files := [("v1.cbz", volume 1 (with_info ("Site: " +:+ newline +:+ "Title: Foo")))] |}.

Definition blank_world : @world idle :=
  world_of idle (library [("foo", Dir false 5 blank_folder)]) tt.

Definition bar : Path := ("lib", "bar").

(** Two titles: [foo], touched last, has a volume without [info.txt] and no
    configuration; [bar] is configured. *)
Definition stalled_world : @world idle :=
  world_of idle
    (library [("bar", Dir false 5 configured_folder);
              ("foo", Dir false 9 bare_folder)]) tt.

(** What a tool run leaves in the folder it was called for: the given
    files, after those that were there. *)
Definition add_volumes (files : list (string * file)) (a : fetch_args)
    (f : filesystem) : filesystem :=
  match nodes f !! (destination a, name a) with
  | Some (Dir l m d) =>
      set_nodes f
        (<[(destination a, name a) :=
             Dir l (clock f)
               {| d_config := d_config d; d_files := d_files d ++ files |}]>
           (nodes f))
  | _ => f
  end.

(** A tool that brings two volumes and a cover, and a tool that fails after
    it brought one volume. *)
Definition growing : Platform :=
  scripted (add_volumes [("a.cbz", volume 7 (Zip None));
                         ("b.cbz", volume 8 (Zip None));
                         ("cover.png", volume 8 NotAZip)]) None.

Definition flaky : Platform :=
  scripted (add_volumes [("a.cbz", volume 7 (Zip None))])
    (Some (ErrorReturnCode 1)).

(** A configured title with the one volume [x.cbz]. *)
Definition shelf_folder : folder :=
  {| d_config := Some (Document (PyDict [("url", PyStr "https://example.test/foo")]));
     d_files := [("x.cbz", volume 1 (Zip None))] |}.

Definition shelf : filesystem :=
  library [("foo", Dir false 5 shelf_folder); ("bar", Dir false 3 shelf_folder)].

(** The comic [__init__] builds for a title of [shelf]. *)
Definition shelf_comic (P : Platform) (p : Path) : Comic.t :=
  @configured P shelf p (PyStr "https://example.test/foo").

Definition flaky_world : @world flaky := world_of flaky shelf tt.

Definition growing_world : @world growing := world_of growing shelf tt.

(** The library [Library.__init__] builds on [shelf]. *)
Definition shelf_library (P : Platform) : Library.t :=
  {| Library.base_dirs := ["lib"];
     Library.comics := [shelf_comic P foo; shelf_comic P bar];
     Library.downloaded_volumes := ∅ |}.

(** Two empty titles touched at the same time, listed [b] first. *)
Definition tied_world : @world idle :=
  world_of idle
    (library [("b", Dir false 5 empty_folder);
              ("a", Dir false 5 empty_folder)]) tt.


(** A title whose [info.json] has no [url], and one whose [info.json]
    holds a list. *)
Definition keyless_world : @world idle :=
  world_of idle
    (library [("foo", Dir false 5
                 {| d_config := Some (Document (PyDict [("site", PyStr "x")]));
                    d_files := [] |})]) tt.

Definition listed_world : @world idle :=
  world_of idle
    (library [("foo", Dir false 5
                 {| d_config := Some (Document (PyList [PyStr "https://example.test/foo"]));
                    d_files := [] |})]) tt.

(** A base directory with a title and, beside it, a dangling link or a
    regular file. *)
Definition dangling_world : @world idle :=
  world_of idle
    (library [("foo", Dir false 5 configured_folder); ("lost", Dangling)]) tt.

Definition cluttered_world : @world idle :=
  world_of idle
    (library [("foo", Dir false 5 configured_folder);
              ("README", NonDir false 3)]) tt.

(** A base directory whose listing names a child that is not there. *)
Definition vanished_world : @world idle :=
  world_of idle
    {| nodes := ∅; listing := {[ "lib" := ["new"] ]}; clock := 1000 |} tt.

(** A configured title that has no volume yet. *)
Definition promised_folder : folder :=
  {| d_config := Some (Document (PyDict [("url", PyStr "https://example.test/foo")]));
     d_files := [("cover.png", volume 3 NotAZip)] |}.

Definition promised_world : @world idle :=
  world_of idle (library [("foo", Dir false 5 promised_folder)]) tt.

(** The comic of a title with volumes whose URL is the empty string. *)
Definition nameless_comic : Comic.t :=
  Comic.set_url (@unresolved idle (fs emptied_world) foo) (PyStr "").

(** A title whose configuration has an empty [url] and whose only volume
    has no [info.txt]. *)
Definition hollow_folder : folder :=
  {| d_config := Some (Document (PyDict [("url", PyStr "")]));
     d_files := [("v1.cbz", volume 1 (Zip None))] |}.

Definition hollow_world : @world idle :=
  world_of idle (library [("foo", Dir false 5 hollow_folder)]) tt.


(** * Properties *)

(** Unfolds the monad, leaving the function on the world. *)
Ltac run :=
  unfold mbind, M_bind, bind, mret, M_ret, ret, raise, lift, try_except,
    echo, emit, get_fs, put_fs; simpl.

(** ** Strings and the pattern *)

Lemma strip_prefix_app (p s : string) : strip_prefix p (p +:+ s) = Some s.
Proof.
  induction p as [|a p IH]; simpl; [done|].
  by rewrite Ascii.eqb_refl.
Qed.

(** ["Site: "] has no proper prefix that is also a suffix, so an occurrence
    cannot begin in a text that does not contain the pattern and end in an
    occurrence appended to it. *)
Lemma strip_prefix_site_straddle (c : ascii) (pre r : string) :
  strip_prefix "Site: " (String c pre) = None →
  strip_prefix "Site: " (String c pre +:+ "Site: " +:+ r) = None.
Proof.
  intros Hno. simpl in *.
  destruct (Ascii.eqb_spec "S" c) as [<-|]; [|done].
  repeat match goal with
  | Hn : context [match ?s with EmptyString => _ | String _ _ => _ end] |- _ =>
      is_var s; destruct s as [|? ?]; simpl in *; [done|]
  | Hn : context [Ascii.eqb ?a ?b] |- _ =>
      destruct (Ascii.eqb_spec a b) as [<-|]; simpl in *; [|done]
  end.
  done.
Qed.

Lemma rest_of_line_app (u rest : string) :
  str_contains newline u = false →
  rest = "" ∨ (∃ r, rest = newline +:+ r) →
  rest_of_line (u +:+ rest) = u.
Proof.
  intros Hu Hrest. induction u as [|c u IH]; simpl.
  - by destruct Hrest as [->|[r ->]].
  - simpl in Hu. destruct (Ascii.eqb_spec "010" c) as [<-|Hc].
    + by destruct u.
    + destruct (Ascii.eqb_spec c "010") as [->|_]; [done|].
      f_equal. apply IH. by destruct u.
Qed.

Lemma re_search_site_unfold (s : string) :
  re_search_site s =
  match strip_prefix "Site: " s with
  | Some r => Some (rest_of_line r)
  | None =>
      match s with
      | EmptyString => None
      | String _ s' => re_search_site s'
      end
  end.
Proof. by destruct s. Qed.

Lemma str_contains_unfold (needle hay : string) :
  str_contains needle hay =
  match strip_prefix needle hay with
  | Some _ => true
  | None =>
      match hay with
      | EmptyString => false
      | String _ hay' => str_contains needle hay'
      end
  end.
Proof. by destruct hay. Qed.

Lemma re_search_site_first (text u : string) :
  first_site_line text u → re_search_site text = Some u.
Proof.
  intros (pre & rest & -> & Hpre & Hu & Hrest).
  induction pre as [|c pre IH].
  - change ("" +:+ "Site: " +:+ u +:+ rest) with ("Site: " +:+ (u +:+ rest)).
    rewrite re_search_site_unfold, strip_prefix_app.
    by rewrite rest_of_line_app.
  - rewrite str_contains_unfold in Hpre.
    destruct (strip_prefix "Site: " (String c pre)) eqn:Hc; [done|].
    rewrite re_search_site_unfold.
    rewrite (strip_prefix_site_straddle c pre (u +:+ rest) Hc).
    change (String c pre +:+ "Site: " +:+ u +:+ rest)
      with (String c (pre +:+ "Site: " +:+ u +:+ rest)).
    by apply IH.
Qed.

(** ** [sorted] *)

Section sorted_facts.
Context {A : Type}.
Implicit Types (x y : Z * A) (l : list (Z * A)).

Lemma sorted_insert_perm reverse x l : sorted_insert reverse x l ≡ₚ x :: l.
Proof.
induction l as [|y l IH]; simpl; [done|].
destruct (goes_after reverse x y); [|done].
by rewrite IH, Permutation_swap.
Qed.

Lemma sorted_perm reverse l : sorted reverse l ≡ₚ l.
Proof.
induction l as [|x l IH]; simpl; [done|].
by rewrite sorted_insert_perm, IH.
Qed.

Lemma key_le_trans reverse x y z :
key_le reverse x y → key_le reverse y z → key_le reverse x z.
Proof. unfold key_le. destruct reverse; lia. Qed.

Lemma sorted_insert_sorted reverse x l :
StronglySorted (key_le reverse) l →
StronglySorted (key_le reverse) (sorted_insert reverse x l).
Proof.
induction 1 as [|y l Hl IH Hy]; simpl.
- repeat constructor.
- destruct (goes_after reverse x y) eqn:E.
  + constructor; [done|].
    rewrite sorted_insert_perm. constructor; [|done].
    unfold goes_after in E. unfold key_le. destruct reverse; lia.
  + assert (key_le reverse x y) as Hxy.
    { unfold goes_after in E. unfold key_le. destruct reverse; lia. }
    constructor; [by constructor|].
    constructor; [done|].
    eapply Forall_impl; [exact Hy|]. intros z Hz.
    by eapply key_le_trans.
Qed.

Lemma sorted_sorted reverse l : StronglySorted (key_le reverse) (sorted reverse l).
Proof.
induction l as [|x l IH]; simpl; [constructor|].
by apply sorted_insert_sorted.
Qed.

(** Stability: the elements of one key stay in the order of the input. *)
Lemma sorted_insert_stable reverse k x l :
filter (λ y, y.1 = k) (sorted_insert reverse x l)
= filter (λ y, y.1 = k) (x :: l).
Proof.
induction l as [|y l IH]; simpl; [done|].
destruct (goes_after reverse x y) eqn:E; [|done].
rewrite !filter_cons in *.
destruct (decide (y.1 = k)) as [Hy|Hy], (decide (x.1 = k)) as [Hx|Hx];
  rewrite IH; try done.
unfold goes_after in E. destruct reverse; lia.
Qed.

Lemma sorted_stable reverse k l :
filter (λ y, y.1 = k) (sorted reverse l) = filter (λ y, y.1 = k) l.
Proof.
induction l as [|x l IH]; simpl; [done|].
rewrite sorted_insert_stable, !filter_cons. by rewrite IH.
Qed.

Lemma strongly_sorted_last (R : relation (Z * A)) l x :
StronglySorted R l → last l = Some x → ∀ y, y ∈ l → y = x ∨ R y x.
Proof.
induction 1 as [|z l Hl IH Hz]; [done|].
intros Hlast y Hy. destruct l as [|z' l'].
- simpl in Hlast. injection Hlast as <-.
  apply list_elem_of_singleton in Hy. by left.
- change (last (z' :: l') = Some x) in Hlast.
  apply elem_of_cons in Hy as [->|Hy]; [|by apply IH].
  right. rewrite Forall_forall in Hz. apply Hz.
  apply last_Some_elem_of in Hlast. done.
Qed.

(** The last element of an ascending sort carries a greatest key. *)
Lemma sorted_last_greatest l :
l ≠ [] →
∃ x, last (sorted false l) = Some x ∧ x ∈ l
     ∧ ∀ y, y ∈ l → (y.1 ≤ x.1)%Z.
Proof.
intros Hl.
destruct (last (sorted false l)) as [x|] eqn:E.
- exists x. split; [done|]. split.
  + rewrite <- (sorted_perm false l). by apply last_Some_elem_of.
  + intros y Hy. rewrite <- (sorted_perm false l) in Hy.
    destruct (strongly_sorted_last _ _ _ (sorted_sorted false l) E y Hy)
      as [->|Hr]; [lia|exact Hr].
- apply last_None in E.
  pose proof (sorted_perm false l) as Hp. rewrite E in Hp.
  by apply Permutation_nil_l in Hp.
Qed.
End sorted_facts.

(** ** The monad *)

Section monad_facts.
Context `{Platform}.

Lemma bind_unfold {A B} (m : M A) (f : A → M B) (w : world) :
(m ≫= f) w =
match m w with
| (Ok a, w', t) => let '(r, w'', t') := f a w' in (r, w'', t ++ t')
| (Raise e, w', t) => (Raise e, w', t)
end.
Proof. done. Qed.

Lemma bind_ok {A B} (m : M A) (f : A → M B) (w w' : world) a t :
m w = (Ok a, w', t) →
(m ≫= f) w = let '(r, w'', t') := f a w' in (r, w'', t ++ t').
Proof. intros E. by rewrite bind_unfold, E. Qed.

(** A step that only looks at the world. *)
Lemma bind_pure {A B} (m : M A) (f : A → M B) (w : world) a :
m w = (Ok a, w, []) → (m ≫= f) w = f a w.
Proof. intros E. rewrite bind_unfold, E. by destruct (f a w) as [[??]?]. Qed.

End monad_facts.

(** ** Scanning a folder and picking its last file *)

Lemma lookup_file_is_Some (n : string) (x : file) (l : list (string * file)) :
  (n, x) ∈ l → is_Some (lookup_file n l).
Proof.
  induction l as [|[n' x'] l IH]; intros Hin; [by apply elem_of_nil in Hin|].
  simpl. destruct (String.eqb n' n) eqn:E; [by eexists|].
  apply elem_of_cons in Hin as [Heq|Hin]; [|by apply IH].
  injection Heq as -> ->. by rewrite String.eqb_refl in E.
Qed.

Lemma glob_cbz_volume_file (f : filesystem) (p : Path) (v : Volume) :
  v ∈ glob_cbz f p → is_Some (volume_file f v).
Proof.
  unfold glob_cbz, volume_file. destruct (folder_of f p) as [d|] eqn:Hd.
  - intros Hin. apply list_elem_of_fmap in Hin as ([n x] & -> & Hin).
    apply list_elem_of_filter in Hin as [_ Hin]. simpl. rewrite Hd. simpl.
    by eapply lookup_file_is_Some.
  - intros Hin. by apply elem_of_nil in Hin.
Qed.

Lemma scan_volume_file (f : filesystem) (p : Path) (v : Volume) :
  v ∈ scan f p → is_Some (volume_file f v).
Proof.
  unfold scan. rewrite elem_of_list_to_set. apply glob_cbz_volume_file.
Qed.

Lemma scan_nonempty (f : filesystem) (p : Path) (v : Volume) :
  v ∈ glob_cbz f p → scan f p ≠ ∅.
Proof.
  intros Hv Hs. apply (not_elem_of_empty (C:=gset Volume) v).
  rewrite <- Hs. unfold scan. by apply elem_of_list_to_set.
Qed.

(** Shows that a folder of a given world has volumes, by naming one. *)
Ltac has_volume v :=
  apply (scan_nonempty _ _ v); vm_compute; repeat constructor.

Section get_last_file_facts.
Context `{Platform}.

Lemma with_keys_ok {A} (key : A → M Z) (g : A → Z) (l : list A) (w : world) :
(∀ x, x ∈ l → key x w = (Ok (g x), w, [])) →
with_keys key l w = (Ok ((λ x, (g x, x)) <$> l), w, []).
Proof.
induction l as [|x l IH]; intros Hkey; [done|].
simpl. rewrite (bind_pure _ _ _ (g x)) by (apply Hkey; left).
rewrite (bind_pure _ _ _ ((λ x, (g x, x)) <$> l)); [done|].
apply IH. intros y Hy. apply Hkey. by right.
Qed.

Lemma stat_volume_ok (v : Volume) (w : world) :
is_Some (volume_file (fs w) v) →
stat_volume v w = (Ok (volume_mtime (fs w) v), w, []).
Proof.
intros [x Hx]. unfold stat_volume, volume_mtime.
rewrite (bind_pure _ _ _ (fs w)) by done. by rewrite Hx.
Qed.

Lemma get_last_file_empty (w : world) : get_last_file ∅ w = (Ok None, w, []).
Proof. unfold get_last_file. by rewrite decide_False by (by intros []). Qed.

(** On a set whose files are all there, [get_last_file] only reads. *)
Lemma get_last_file_eq `{!PlatformLaws} (s : gset Volume) (w : world) :
(∀ v, v ∈ s → is_Some (volume_file (fs w) v)) →
get_last_file s w = (Ok (last_of (fs w) s), w, []).
Proof.
intros Hfiles. unfold get_last_file, last_of.
destruct (decide (s ≠ ∅)) as [Hne|]; [|done].
assert (Hiter : ∀ v, v ∈ set_iter s ↔ v ∈ s).
{ intros v. by rewrite (set_iter_elements s), elem_of_elements. }
rewrite (bind_pure _ _ _ ((λ v, (volume_mtime (fs w) v, v)) <$> set_iter s)).
2:{ apply with_keys_ok. intros v Hv. apply stat_volume_ok, Hfiles.
    by apply Hiter. }
destruct (sorted_last_greatest
            ((λ v, (volume_mtime (fs w) v, v)) <$> set_iter s))
  as (kv & -> & _); [|done].
intros Hnil. apply fmap_nil_inv in Hnil.
apply Hne. apply set_eq. intros v. rewrite <- Hiter, Hnil.
split; intros Hv; [by apply elem_of_nil in Hv|by apply elem_of_empty in Hv].
Qed.

Lemma last_of_most_recent `{!PlatformLaws} (f : filesystem) (s : gset Volume) :
s ≠ ∅ → ∃ v, last_of f s = Some v ∧ most_recent f s v.
Proof.
intros Hne. unfold last_of. rewrite decide_True by done.
assert (Hiter : ∀ v, v ∈ set_iter s ↔ v ∈ s).
{ intros v. by rewrite (set_iter_elements s), elem_of_elements. }
destruct (sorted_last_greatest
            ((λ v, (volume_mtime f v, v)) <$> set_iter s))
  as ([k v] & Hlast & Hin & Hmax).
{ intros Hnil. apply fmap_nil_inv in Hnil.
  apply Hne. apply set_eq. intros v. rewrite <- Hiter, Hnil.
  split; intros Hv; [by apply elem_of_nil in Hv|by apply elem_of_empty in Hv]. }
rewrite Hlast. exists v. split; [done|].
apply list_elem_of_fmap in Hin as (v0 & [= -> ->] & Hv0).
split; [by apply Hiter|].
intros v' Hv'. apply (Hmax (volume_mtime f v', v')).
apply list_elem_of_fmap. exists v'. split; [done|]. by apply Hiter.
Qed.

Lemma last_of_empty (f : filesystem) : last_of f ∅ = None.
Proof. unfold last_of. by rewrite decide_False by (by intros []). Qed.
End get_last_file_facts.

(** ** The steps of [Comic] on a known world *)

Section comic_steps.
Context `{Platform}.
Implicit Types (self : Comic.t) (w : world).

Lemma folder_of_Dir (f : filesystem) (p : Path) l m d :
nodes f !! p = Some (Dir l m d) → folder_of f p = Some d.
Proof. intros E. unfold folder_of. by rewrite E. Qed.

Lemma config_of_Dir (f : filesystem) (p : Path) l m d :
nodes f !! p = Some (Dir l m d) → config_of f p = d_config d.
Proof. intros E. unfold config_of. by rewrite (folder_of_Dir f p l m d E). Qed.

Lemma _get_actual_comic_volumes_dir self w l m d :
nodes (fs w) !! Comic.path self = Some (Dir l m d) →
Comic._get_actual_comic_volumes self w
= (Ok (scan (fs w) (Comic.path self)), w, []).
Proof.
intros E. unfold Comic._get_actual_comic_volumes, is_dir, glob_cbz_set.
run. by repeat (rewrite E; simpl).
Qed.

Lemma _get_actual_comic_volumes_symlink self w :
(∃ m, nodes (fs w) !! Comic.path self = Some (NonDir true m))
∨ nodes (fs w) !! Comic.path self = Some Dangling →
Comic._get_actual_comic_volumes self w
= (Ok ∅, w, [Echo (MsgSymlink (Comic.path self))]).
Proof.
intros E. unfold Comic._get_actual_comic_volumes, is_dir, is_symlink.
run. by destruct E as [[m E]|E]; repeat (rewrite E; simpl).
Qed.

Lemma _get_actual_comic_volumes_file self w m :
nodes (fs w) !! Comic.path self = Some (NonDir false m) →
Comic._get_actual_comic_volumes self w = (Raise FileExistsError, w, []).
Proof.
intros E.
unfold Comic._get_actual_comic_volumes, is_dir, is_symlink, mkdir.
run. by repeat (rewrite E; simpl).
Qed.

(** What reading the configuration yields, case by case. *)
Lemma _get_url_from_config_absent self w :
config_of (fs w) (Comic.path self) = None →
Comic._get_url_from_config self w = (Ok self, w, []).
Proof.
intros E. unfold Comic._get_url_from_config, config_exists. run.
by rewrite E.
Qed.

Lemma _get_url_from_config_malformed self w :
config_of (fs w) (Comic.path self) = Some Malformed →
Comic._get_url_from_config self w
= (Ok self, w, [Echo (MsgConfigException JSONDecodeError)]).
Proof.
intros E. unfold Comic._get_url_from_config, config_exists, json_load.
run. by repeat (rewrite E; simpl).
Qed.

Lemma _get_url_from_config_document self w doc :
config_of (fs w) (Comic.path self) = Some (Document doc) →
Comic._get_url_from_config self w
= match py_getitem doc "url" with
  | Ok u => (Ok (Comic.set_url self u), w, [])
  | Raise (KeyError k) => (Ok self, w, [Echo (MsgConfigException (KeyError k))])
  | Raise e => (Raise e, w, [])
  end.
Proof.
intros E. unfold Comic._get_url_from_config, config_exists, json_load.
run. repeat (rewrite E; simpl).
destruct (py_getitem doc "url") as [u|e] eqn:Hu; [done|].
assert (e = TypeError ∨ ∃ k, e = KeyError k) as [->|[k ->]]; [|done|done].
unfold py_getitem in Hu. destruct doc; try (left; congruence).
destruct (list_find _ _) as [[? [? ?]]|]; [done|].
injection Hu as <-. right. by eexists.
Qed.

(** What reading the archive yields, case by case. *)
Lemma ZipFile_eq (last : option Volume) w :
ZipFile last w =
match file_named (fs w) last with
| Some x =>
    match f_archive x with
    | Zip info_txt => (Ok info_txt, w, [ZipOpen last])
    | NotAZip => (Raise BadZipFile, w, [ZipOpen last])
    end
| None => (Raise FileNotFoundError, w, [ZipOpen last])
end.
Proof.
unfold ZipFile. run.
destruct (file_named (fs w) last) as [x|]; [|done].
by destruct (f_archive x).
Qed.

Lemma _get_url_from_cbz_eq self w :
Comic._get_url_from_cbz self w =
match file_named (fs w) (Comic.last_file self) with
| Some x =>
    match f_archive x with
    | Zip (Some (InfoText text)) =>
        match re_search_site text with
        | Some group =>
            (Ok (Comic.set_url_from_cbz (Comic.set_url self (PyStr group)) true),
             w, [ZipOpen (Comic.last_file self)])
        | None => (Ok self, w, [ZipOpen (Comic.last_file self)])
        end
    | Zip (Some InfoUndecodable) =>
        (Raise UnicodeDecodeError, w, [ZipOpen (Comic.last_file self)])
    | Zip None =>
        (Ok self, w, [ZipOpen (Comic.last_file self);
                      Echo (MsgZipException (KeyError "info.txt"))])
    | NotAZip => (Raise BadZipFile, w, [ZipOpen (Comic.last_file self)])
    end
| None => (Raise FileNotFoundError, w, [ZipOpen (Comic.last_file self)])
end.
Proof.
unfold Comic._get_url_from_cbz.
unfold try_except. rewrite bind_unfold, ZipFile_eq.
destruct (file_named (fs w) (Comic.last_file self)) as [x|]; [|done].
destruct (f_archive x) as [|[[|text]|]]; try done.
run. by destruct (re_search_site text).
Qed.

Lemma json_dump_dir doc (p : Path) sort_keys indent w l m d :
nodes (fs w) !! p = Some (Dir l m d) →
json_dump doc p sort_keys indent w
= (Ok (),
   {| fs := set_nodes (fs w)
              (<[p := Dir l (match d_config d with
                             | None => clock (fs w)
                             | Some _ => m
                             end)
                      {| d_config := Some (Document doc);
                         d_files := d_files d |}]> (nodes (fs w)));
      remote := remote w |},
   [JsonDump p doc sort_keys indent]).
Proof. intros E. unfold json_dump. run. by repeat (rewrite E; simpl). Qed.
End comic_steps.

(** ** Resolution *)

Section resolution.
Context `{Platform} `{!PlatformLaws}.
Implicit Types (self : Comic.t) (w : world) (p : Path).

Lemma scan_files w p v : v ∈ scan (fs w) p → is_Some (volume_file (fs w) v).
Proof. apply scan_volume_file. Qed.

(** [__init__] in a folder that is there: scan, pick, resolve. *)
Lemma __init___dir p w l m d :
nodes (fs w) !! p = Some (Dir l m d) →
Comic.__init__ p w =
match Comic._get_url (unresolved (fs w) p) w with
| (Ok self, w', t) => (Ok (Comic.set_downloaded_volumes self ∅), w', t)
| (Raise e, w', t) => (Raise e, w', t)
end.
Proof.
intros E. unfold Comic.__init__.
rewrite (bind_pure _ _ _ (scan (fs w) p))
  by exact (_get_actual_comic_volumes_dir
              (Comic.Build_t p ∅ None PyNone false ∅) w l m d E).
rewrite (bind_pure _ _ _ (last_of (fs w) (scan (fs w) p)))
  by (apply get_last_file_eq, scan_files).
rewrite bind_unfold. fold (unresolved (fs w) p).
destruct (Comic._get_url (unresolved (fs w) p) w) as [[[self|e] w'] t];
  [|done].
run. by rewrite app_nil_r.
Qed.

(** A configuration with a true [url] settles the matter: nothing else
  is looked at and nothing is written. *)
Lemma _get_url_config_wins self w doc v :
config_of (fs w) (Comic.path self) = Some (Document doc) →
py_getitem doc "url" = Ok v →
truthy v = true →
Comic._get_url self w = (Ok (Comic.set_url self v), w, []).
Proof.
intros Hc Hv Ht. unfold Comic._get_url.
rewrite (bind_pure _ _ _ (Comic.set_url self v)).
- simpl. by rewrite Ht.
- by rewrite (_get_url_from_config_document _ _ doc), Hv.
Qed.

Lemma __init___configured p w doc v :
config_of (fs w) p = Some (Document doc) →
py_getitem doc "url" = Ok v →
truthy v = true →
Comic.__init__ p w = (Ok (configured (fs w) p v), w, []).
Proof.
intros Hc Hv Ht.
assert (∃ l m d, nodes (fs w) !! p = Some (Dir l m d)) as (l & m & d & E).
{ unfold config_of, folder_of in Hc.
  destruct (nodes (fs w) !! p) as [[| |]|]; try done. by eauto. }
rewrite (__init___dir p w l m d E).
by rewrite (_get_url_config_wins (unresolved (fs w) p) w doc v Hc Hv Ht).
Qed.

Lemma __init___config_wins p w doc v :
config_of (fs w) p = Some (Document doc) →
py_getitem doc "url" = Ok v →
truthy v = true →
∃ c, Comic.__init__ p w = (Ok c, w, [])
     ∧ Comic.url c = v ∧ Comic.url_from_cbz c = false.
Proof.
intros Hc Hv Ht. rewrite (__init___configured p w doc v Hc Hv Ht).
by eexists.
Qed.

Lemma truthy_PyStr (u : string) : u ≠ "" → truthy (PyStr u) = true.
Proof. intros Hu. simpl. by destruct u. Qed.
End resolution.

(** ** C1: a configured URL wins over inference *)

(** C1, as amended. For a title folder whose [info.json] holds a record
    with a non-empty string [U] under [url], building the comic returns
    the URL [U] with origin config ([url_from_cbz] is false), whatever the
    folder's archives are, and does nothing observable: the world is left
    as it was and the trace is empty, so no archive is opened.  And
    whenever building a comic does open an archive, the configuration had
    given no true [url]. *)
Theorem C1_config_precedence `{Platform} `{!PlatformLaws} :
  (∀ (w : world) (p : Path) l m d doc U,
     nodes (fs w) !! p = Some (Dir l m d) →
     d_config d = Some (Document doc) →
     py_getitem doc "url" = Ok (PyStr U) →
     U ≠ "" →
     ∃ c, Comic.__init__ p w = (Ok c, w, [])
          ∧ Comic.url c = PyStr U ∧ Comic.url_from_cbz c = false)
  ∧ (∀ (w : world) (p : Path) r w' t last doc v,
       Comic.__init__ p w = (r, w', t) →
       ZipOpen last ∈ t →
       config_of (fs w) p = Some (Document doc) →
       py_getitem doc "url" = Ok v →
       truthy v = false).
Proof.
  split.
  - intros w p l m d doc U E Hc HU Hne.
    apply (__init___config_wins p w doc (PyStr U)); [|done|by apply truthy_PyStr].
    by rewrite (config_of_Dir _ _ l m d E).
  - intros w p r w' t last doc v Hrun Hopen Hc Hv.
    destruct (truthy v) eqn:Ht; [|done].
    destruct (__init___config_wins p w doc v Hc Hv Ht) as (c & Hc' & _).
    rewrite Hc' in Hrun. injection Hrun as <- <- <-.
    by apply elem_of_nil in Hopen.
Qed.

Lemma idle_laws : @PlatformLaws idle.
Proof. intros s. reflexivity. Defined.

Lemma C1_config_precedence_witness :
  ∃ c, @Comic.__init__ idle foo configured_world = (Ok c, configured_world, [])
       ∧ Comic.url c = PyStr "https://example.test/foo"
       ∧ Comic.url_from_cbz c = false.
Proof.
  apply (proj1 (@C1_config_precedence idle idle_laws)
           configured_world foo false 5%Z configured_folder
           (PyDict [("url", PyStr "https://example.test/foo")])
           "https://example.test/foo").
  - vm_compute. reflexivity.
  - reflexivity.
  - reflexivity.
  - discriminate.
Defined.

(** C1 as stated fails when the record's [url] is the empty string: the
    record is there and parses, yet the archive is opened, the URL comes
    from it and the record is rewritten. *)
Lemma C1_counterexample :
  nodes (fs emptied_world) !! foo = Some (Dir false 5 emptied_folder)
  ∧ d_config emptied_folder = Some (Document (PyDict [("url", PyStr "")]))
  ∧ py_getitem (PyDict [("url", PyStr "")]) "url" = Ok (PyStr "")
  ∧ (∃ c w',
       @Comic.__init__ idle foo emptied_world
       = (Ok c, w',
          [ZipOpen (Some (foo, "v1.cbz"));
           JsonDump foo (PyDict [("url", PyStr "https://example.test/bar")]) true 4])
       ∧ Comic.url c = PyStr "https://example.test/bar"
       ∧ Comic.url_from_cbz c = true)
  ∧ ¬ (∃ c, @Comic.__init__ idle foo emptied_world = (Ok c, emptied_world, [])
            ∧ Comic.url c = PyStr "" ∧ Comic.url_from_cbz c = false).
Proof.
  split; [by vm_compute|]. split; [done|]. split; [done|].
  assert (∃ c w',
       @Comic.__init__ idle foo emptied_world
       = (Ok c, w',
          [ZipOpen (Some (foo, "v1.cbz"));
           JsonDump foo (PyDict [("url", PyStr "https://example.test/bar")]) true 4])
       ∧ Comic.url c = PyStr "https://example.test/bar"
       ∧ Comic.url_from_cbz c = true) as Hrun.
  { eexists _, _. split; [vm_compute; reflexivity|]. by split. }
  split; [exact Hrun|].
  destruct Hrun as (c & w' & Hrun & _). intros (c' & Hrun' & _).
  rewrite Hrun in Hrun'. discriminate Hrun'.
Qed.

(** ** C3: the archive inspector *)

Lemma re_search_site_none (text : string) :
  str_contains "Site: " text = false → re_search_site text = None.
Proof.
  induction text as [|c text IH]; intros Hno;
    rewrite str_contains_unfold in Hno; rewrite re_search_site_unfold;
    destruct (strip_prefix "Site: " _); try done.
  by apply IH.
Qed.




(** ** Inference *)

Section inference.
Context `{Platform} `{!PlatformLaws}.
Implicit Types (w : world) (p : Path).

Lemma __init___infers p w l m d U :
nodes (fs w) !! p = Some (Dir l m d) →
d_config d = None
∨ (∃ doc v, d_config d = Some (Document doc)
            ∧ py_getitem doc "url" = Ok v ∧ truthy v = false) →
scan (fs w) p ≠ ∅ →
names_source (fs w) p U →
U ≠ "" →
∃ last,
  last_of (fs w) (scan (fs w) p) = Some last
  ∧ most_recent (fs w) (scan (fs w) p) last
  ∧ Comic.__init__ p w
    = (Ok (inferred (fs w) p U),
       {| fs := with_config (fs w) p l m d (PyDict [("url", PyStr U)]);
          remote := remote w |},
       [ZipOpen (Some last);
        JsonDump p (PyDict [("url", PyStr U)]) true 4]).
Proof.
intros E Hcfg Hne Hsrc HU.
destruct (last_of_most_recent (fs w) (scan (fs w) p) Hne)
  as (last & Hlast & Hrecent).
destruct (Hsrc last Hrecent) as (x & text & Hx & Harch & Hline).
exists last. split; [done|]. split; [done|].
rewrite (__init___dir p w l m d E). unfold Comic._get_url.
assert (∃ v, Comic._get_url_from_config (unresolved (fs w) p) w
             = (Ok (Comic.set_url (unresolved (fs w) p) v), w, [])
             ∧ truthy v = false) as (v & Hread & Hv).
{ destruct Hcfg as [Hnone|(doc & v & Hdoc & Hget & Hv)].
  - exists PyNone. split; [|done].
    apply (_get_url_from_config_absent (unresolved (fs w) p)).
    simpl. by rewrite (config_of_Dir _ _ l m d E).
  - exists v. split; [|done].
    rewrite (_get_url_from_config_document (unresolved (fs w) p) w doc).
    + by rewrite Hget.
    + simpl. by rewrite (config_of_Dir _ _ l m d E). }
rewrite (bind_pure _ _ _ _ Hread). simpl. rewrite Hv. simpl.
rewrite bool_decide_true by done.
rewrite bind_unfold, _get_url_from_cbz_eq. simpl.
rewrite Hlast. simpl. rewrite Hx, Harch.
rewrite (re_search_site_first text U Hline). simpl.
pose proof (truthy_PyStr U HU) as HtU. simpl in HtU. rewrite HtU.
rewrite bind_unfold.
rewrite (json_dump_dir _ _ _ _ _ l m d E). run.
reflexivity.
Qed.

Lemma config_of_with_config (f : filesystem) p l m d doc :
config_of (with_config f p l m d doc) p = Some (Document doc).
Proof.
unfold config_of, folder_of, with_config. simpl.
by rewrite lookup_insert_eq.
Qed.
End inference.

(** ** C2: inference and its persistence *)

(** C2, as amended. For a title folder with no [info.json] and at least one
    volume, whose most recent volume has an [info.txt] in which the first
    [Site: ] is followed by a non-empty rest of line [U]: building the comic
    opens that volume, returns the URL [U] with origin inferred
    ([url_from_cbz] is true) and dumps the record with the one key [url]
    and the value [U], with sorted keys and an indentation of 4, before it
    returns; after that the [info.json] of the folder holds that record,
    and building the comic again returns [U] with origin config, without
    opening or writing anything. *)
Theorem C2_inference_persisted `{Platform} `{!PlatformLaws} (w : world)
    (p : Path) l m d (U : string) :
  nodes (fs w) !! p = Some (Dir l m d) →
  d_config d = None →
  scan (fs w) p ≠ ∅ →
  names_source (fs w) p U →
  U ≠ "" →
  infers_and_persists w p U.
Proof.
  intros E Hnone Hne Hsrc HU.
  destruct (__init___infers p w l m d U E (or_introl Hnone) Hne Hsrc HU)
    as (last & _ & Hrecent & Hrun).
  eexists _, _, last. split; [done|]. split; [exact Hrun|].
  split; [done|]. split; [done|].
  split; [apply config_of_with_config|].
  eapply __init___config_wins.
  - apply config_of_with_config.
  - reflexivity.
  - by apply truthy_PyStr.
Qed.

(** In the worlds with the one title [foo] and the two volumes [v1.cbz] and
    [v2.cbz] at most, the volumes are told apart by their name. *)
Lemma scan_foo_cases (f : filesystem) (v : Volume) (names : list string) :
  glob_cbz f foo = (λ n, (foo, n)) <$> names →
  v ∈ scan f foo → ∃ n, n ∈ names ∧ v = (foo, n).
Proof.
  intros Hglob Hv. unfold scan in Hv. rewrite elem_of_list_to_set, Hglob in Hv.
  apply list_elem_of_fmap in Hv as (n & -> & Hn). by exists n.
Qed.

Lemma inferable_names_source :
  @names_source idle (fs inferable_world) foo "https://example.test/foo".
Proof.
  intros v [Hin Hmax].
  assert (glob_cbz (fs inferable_world) foo
          = (λ n, (foo, n)) <$> ["v1.cbz"; "v2.cbz"]) as Hglob
    by (vm_compute; reflexivity).
  destruct (scan_foo_cases _ v _ Hglob Hin) as (n & Hn & ->).
  apply elem_of_cons in Hn as [->|Hn].
  - exfalso. assert ((foo, "v2.cbz") ∈ scan (fs inferable_world) foo) as H2
      by (by vm_compute).
    specialize (Hmax _ H2). vm_compute in Hmax. by apply Hmax.
  - apply list_elem_of_singleton in Hn as ->.
    eexists _, _. split; [by vm_compute|]. split; [reflexivity|].
    exists ("Title: Foo" +:+ newline), newline.
    split; [done|]. split; [done|]. split; [done|].
    right. by exists "".
Qed.

Lemma C2_inference_persisted_witness :
  @infers_and_persists idle inferable_world foo "https://example.test/foo".
Proof.
  apply (@C2_inference_persisted idle idle_laws inferable_world foo
           false 5%Z inferable_folder "https://example.test/foo").
  - vm_compute. reflexivity.
  - reflexivity.
  - has_volume (foo, "v1.cbz").
  - exact inferable_names_source.
  - discriminate.
Defined.

Lemma blank_names_source : @names_source idle (fs blank_world) foo "".
Proof.
  intros v [Hin _].
  assert (glob_cbz (fs blank_world) foo = (λ n, (foo, n)) <$> ["v1.cbz"]) as Hglob
    by (vm_compute; reflexivity).
  destruct (scan_foo_cases _ v _ Hglob Hin) as (n & Hn & ->).
  apply list_elem_of_singleton in Hn as ->.
  eexists _, _. split; [by vm_compute|]. split; [reflexivity|].
  exists "", (newline +:+ "Title: Foo").
  split; [done|]. split; [done|]. split; [done|].
  right. by eexists.
Qed.

(** C2 as stated fails when nothing follows [Site: ] on its line: the
    comic is built with the empty URL marked as inferred, but nothing is
    written, so the folder still has no [info.json] afterwards. *)
Lemma C2_counterexample :
  nodes (fs blank_world) !! foo = Some (Dir false 5 blank_folder)
  ∧ d_config blank_folder = None
  ∧ scan (fs blank_world) foo ≠ ∅
  ∧ @names_source idle (fs blank_world) foo ""
  ∧ (∃ c, @Comic.__init__ idle foo blank_world
          = (Ok c, blank_world, [ZipOpen (Some (foo, "v1.cbz"))])
          ∧ Comic.url c = PyStr ""
          ∧ Comic.url_from_cbz c = true)
  ∧ ¬ @infers_and_persists idle blank_world foo "".
Proof.
  split; [by vm_compute|]. split; [done|].
  split; [has_volume (foo, "v1.cbz")|].
  split; [exact blank_names_source|].
  assert (∃ c, @Comic.__init__ idle foo blank_world
          = (Ok c, blank_world, [ZipOpen (Some (foo, "v1.cbz"))])
          ∧ Comic.url c = PyStr ""
          ∧ Comic.url_from_cbz c = true) as Hrun.
  { eexists. split; [vm_compute; reflexivity|]. by split. }
  split; [exact Hrun|].
  destruct Hrun as (c & Hrun & _).
  intros (c' & w' & last & _ & Hrun' & _).
  rewrite Hrun in Hrun'. discriminate Hrun'.
Qed.


(** ** C10: an empty [url] in the configuration *)

Section forget.
Context `{Platform}.
Implicit Types (f : filesystem) (p q : Path).

Lemma folder_files_forget f p q :
d_files <$> folder_of (forget_config f p) q = d_files <$> folder_of f q.
Proof.
unfold folder_of, forget_config. simpl.
destruct (decide (p = q)) as [->|Hne].
- rewrite lookup_alter_eq. by destruct (nodes f !! q) as [[| |]|].
- by rewrite lookup_alter_ne.
Qed.

Lemma volume_file_forget f p v :
volume_file (forget_config f p) v = volume_file f v.
Proof.
unfold volume_file. pose proof (folder_files_forget f p v.1) as Hf.
destruct (folder_of (forget_config f p) v.1), (folder_of f v.1);
  simpl in Hf; try done.
by injection Hf as ->.
Qed.

Lemma glob_cbz_forget f p q : glob_cbz (forget_config f p) q = glob_cbz f q.
Proof.
unfold glob_cbz. pose proof (folder_files_forget f p q) as Hf.
destruct (folder_of (forget_config f p) q), (folder_of f q);
  simpl in Hf; try done.
by injection Hf as ->.
Qed.

Lemma scan_forget f p q : scan (forget_config f p) q = scan f q.
Proof. unfold scan. by rewrite glob_cbz_forget. Qed.

Lemma volume_mtime_forget f p v :
volume_mtime (forget_config f p) v = volume_mtime f v.
Proof. unfold volume_mtime. by rewrite volume_file_forget. Qed.

Lemma last_of_forget f p s : last_of (forget_config f p) s = last_of f s.
Proof.
unfold last_of. destruct (decide (s ≠ ∅)); [|done].
do 3 f_equal. apply list_fmap_ext. intros _ v _.
by rewrite volume_mtime_forget.
Qed.

Lemma names_source_forget f p u :
names_source f p u → names_source (forget_config f p) p u.
Proof.
intros Hsrc v [Hin Hmax]. rewrite scan_forget in Hin.
destruct (Hsrc v) as (x & text & Hx & Hrest).
- split; [done|]. intros v' Hv'.
  rewrite <- !(volume_mtime_forget f p). apply Hmax.
  by rewrite scan_forget.
- exists x, text. by rewrite volume_file_forget.
Qed.

Lemma nodes_forget f p l m d :
nodes f !! p = Some (Dir l m d) →
nodes (forget_config f p) !! p
= Some (Dir l m {| d_config := None; d_files := d_files d |}).
Proof. intros E. unfold forget_config. simpl. by rewrite lookup_alter_eq, E. Qed.
End forget.

Section fall_through.
Context `{Platform} `{!PlatformLaws}.
Implicit Types (w : world) (p : Path).

(** Building the comic of a folder with volumes whose [info.json] gave
  nothing that counts as a URL: what the most recent volume decides. *)
Lemma __init___inference p w l m d (v0 : pyval) :
nodes (fs w) !! p = Some (Dir l m d) →
Comic._get_url_from_config (unresolved (fs w) p) w
= (Ok (Comic.set_url (unresolved (fs w) p) v0), w, []) →
truthy v0 = false →
scan (fs w) p ≠ ∅ →
∃ last,
  last_of (fs w) (scan (fs w) p) = Some last
  ∧ most_recent (fs w) (scan (fs w) p) last
  ∧ Comic.__init__ p w
    = match volume_file (fs w) last with
      | None => (Raise FileNotFoundError, w, [ZipOpen (Some last)])
      | Some x =>
          match f_archive x with
          | NotAZip => (Raise BadZipFile, w, [ZipOpen (Some last)])
          | Zip None =>
              (Ok (configured (fs w) p v0), w,
               [ZipOpen (Some last);
                Echo (MsgZipException (KeyError "info.txt"))])
          | Zip (Some InfoUndecodable) =>
              (Raise UnicodeDecodeError, w, [ZipOpen (Some last)])
          | Zip (Some (InfoText text)) =>
              match re_search_site text with
              | None => (Ok (configured (fs w) p v0), w, [ZipOpen (Some last)])
              | Some u =>
                  if String.eqb u "" then
                    (Ok (inferred (fs w) p u), w, [ZipOpen (Some last)])
                  else
                    (Ok (inferred (fs w) p u),
                     {| fs := with_config (fs w) p l m d
                                (PyDict [("url", PyStr u)]);
                        remote := remote w |},
                     [ZipOpen (Some last);
                      JsonDump p (PyDict [("url", PyStr u)]) true 4])
              end
          end
      end.
Proof.
intros E Hconfig Hfalse Hne.
destruct (last_of_most_recent (fs w) (scan (fs w) p) Hne)
  as (last & Hlast & Hrecent).
exists last. split; [done|]. split; [done|].
rewrite (__init___dir p w l m d E). unfold Comic._get_url.
rewrite (bind_pure _ _ _ _ Hconfig).
simpl. rewrite Hfalse. simpl. rewrite bool_decide_true by done.
rewrite bind_unfold, _get_url_from_cbz_eq. simpl. rewrite Hlast. simpl.
destruct (volume_file (fs w) last) as [x|]; [|done].
destruct (f_archive x) as [|[[|text]|]]; try done.
- destruct (re_search_site text) as [u|]; simpl; [|by rewrite Hfalse].
  destruct (String.eqb u ""); simpl; [done|].
  rewrite bind_unfold. by rewrite (json_dump_dir _ _ _ _ _ l m d E).
- simpl. by rewrite Hfalse.
Qed.
End fall_through.

(** C10, as amended. Take a title folder whose [info.json] parses and
    holds the empty string under [url], and which has at least one volume.
    Building its comic opens a most recent volume and goes on as it does
    for the same folder without [info.json]: the same events, the same
    exception if one is raised, and, when the volume's [info.txt] gives a
    URL, the same comic, whose URL, if it is not empty, is dumped over the
    old record.  But when the volume gives no URL the comic is not the
    same: it keeps the empty string where the folder without [info.json]
    leaves the URL absent. *)
Theorem C10_empty_url_falls_through `{Platform} `{!PlatformLaws} (w : world)
    (p : Path) (l : bool) (m : Z) (d : folder) (doc : pyval) :
  nodes (fs w) !! p = Some (Dir l m d) →
  d_config d = Some (Document doc) →
  py_getitem doc "url" = Ok (PyStr "") →
  scan (fs w) p ≠ ∅ →
  ∃ last r w' r0 w0' t,
    most_recent (fs w) (scan (fs w) p) last
    ∧ Comic.__init__ p w = (r, w', ZipOpen (Some last) :: t)
    ∧ Comic.__init__ p (without_config w p) = (r0, w0', ZipOpen (Some last) :: t)
    ∧ match r0 with
      | Raise e => r = Raise e ∧ w' = w
      | Ok c0 =>
          if Comic.url_from_cbz c0 then
            r = Ok c0
            ∧ (truthy (Comic.url c0) = true →
               config_of (fs w') p
               = Some (Document (PyDict [("url", Comic.url c0)])))
          else
            Comic.url c0 = PyNone
            ∧ r = Ok (Comic.set_url c0 (PyStr ""))
            ∧ w' = w
      end.
Proof.
  intros E Hdoc Hget Hne.
  destruct (__init___inference p w l m d (PyStr "") E) as (last & Hlast & Hrecent & Hrun);
    [|done|done|].
  { rewrite (_get_url_from_config_document _ w doc).
    - by rewrite Hget.
    - simpl. by rewrite (config_of_Dir _ _ l m d E). }
  destruct (__init___inference p (without_config w p) l m
              {| d_config := None; d_files := d_files d |} PyNone)
    as (last0 & Hlast0 & _ & Hrun0); simpl.
  { by apply nodes_forget. }
  { apply _get_url_from_config_absent. simpl.
    by rewrite (config_of_Dir _ _ l m _ (nodes_forget _ _ _ _ _ E)). }
  { done. }
  { by rewrite scan_forget. }
  simpl in Hlast0, Hrun0.
  rewrite scan_forget, last_of_forget, Hlast in Hlast0. injection Hlast0 as <-.
  rewrite volume_file_forget in Hrun0.
  assert (∀ v, configured (forget_config (fs w) p) p v = configured (fs w) p v)
    as Hconfigured.
  { intros v. unfold configured. by rewrite scan_forget, last_of_forget. }
  assert (∀ u, inferred (forget_config (fs w) p) p u = inferred (fs w) p u)
    as Hinferred.
  { intros u. unfold inferred. by rewrite scan_forget, last_of_forget. }
  rewrite ?Hconfigured in Hrun0.
  exists last. rewrite Hrun, Hrun0.
  destruct (volume_file (fs w) last) as [x|]; [|by eexists _, _, _, _, _].
  destruct (f_archive x) as [|[[|text]|]]; try (by eexists _, _, _, _, _).
  destruct (re_search_site text) as [u|]; [|by eexists _, _, _, _, _].
  rewrite Hinferred.
  destruct (String.eqb u "") eqn:Hu.
  - eexists _, _, _, _, _. split; [done|]. split; [done|]. split; [done|].
    simpl. split; [done|]. by rewrite Hu.
  - eexists _, _, _, _, _. split; [done|]. split; [done|]. split; [done|].
    simpl. split; [done|]. intros _. apply config_of_with_config.
Qed.

Lemma C10_empty_url_falls_through_witness :
  ∃ last r w' r0 w0' t,
    most_recent (fs emptied_world) (scan (fs emptied_world) foo) last
    ∧ @Comic.__init__ idle foo emptied_world = (r, w', ZipOpen (Some last) :: t)
    ∧ @Comic.__init__ idle foo (without_config emptied_world foo)
      = (r0, w0', ZipOpen (Some last) :: t)
    ∧ match r0 with
      | Raise e => r = Raise e ∧ w' = emptied_world
      | Ok c0 =>
          if Comic.url_from_cbz c0 then
            r = Ok c0
            ∧ (truthy (Comic.url c0) = true →
               config_of (fs w') foo
               = Some (Document (PyDict [("url", Comic.url c0)])))
          else
            Comic.url c0 = PyNone
            ∧ r = Ok (Comic.set_url c0 (PyStr ""))
            ∧ w' = emptied_world
      end.
Proof.
  apply (@C10_empty_url_falls_through idle idle_laws emptied_world foo
           false 5%Z emptied_folder (PyDict [("url", PyStr "")])).
  - vm_compute. reflexivity.
  - reflexivity.
  - reflexivity.
  - has_volume (foo, "v1.cbz").
Defined.

(** C10 as stated fails: an empty [url] is not treated exactly like a
    missing [info.json].  With a volume that has no [info.txt], the comic
    of the folder keeps the empty string for URL, and the comic of the
    same folder without [info.json] has none; updating the first calls
    the tool with the empty URL, updating the second raises
    [TypeError]. *)
Lemma C10_counterexample :
  ∃ c c0,
    @Comic.__init__ idle foo hollow_world
    = (Ok c, hollow_world,
       [ZipOpen (Some (foo, "v1.cbz"));
        Echo (MsgZipException (KeyError "info.txt"))])
    ∧ @Comic.__init__ idle foo (without_config hollow_world foo)
      = (Ok c0, without_config hollow_world foo,
         [ZipOpen (Some (foo, "v1.cbz"));
          Echo (MsgZipException (KeyError "info.txt"))])
    ∧ Comic.url c = PyStr ""
    ∧ Comic.url c0 = PyNone
    ∧ (∃ c' t, @Comic.update idle c hollow_world = (Ok c', hollow_world, t)
               ∧ MangaPy (request c) ∈ t)
    ∧ (∃ t, @Comic.update idle c0 (without_config hollow_world foo)
            = (Raise TypeError, without_config hollow_world foo, t)
            ∧ ∀ a, MangaPy a ∉ t).
Proof.
  eexists _, _.
  split; [vm_compute; reflexivity|].
  split; [vm_compute; reflexivity|].
  split; [reflexivity|]. split; [reflexivity|]. split.
  - eexists _, _. split; [vm_compute; reflexivity|].
    apply list_elem_of_In. vm_compute. tauto.
  - eexists. split; [vm_compute; reflexivity|].
    intros a Ha. apply list_elem_of_In in Ha. vm_compute in Ha.
    intuition discriminate.
Qed.

(** ** C4: a title without URL *)

(** What the code does for C4.  The skip check on an absent URL is false
    and raises nothing, and the tool is not called; but [_download_comic]
    goes on after "No url available" and tests ['mangadex' in None], so
    [update] raises [TypeError], and with it the loop over the comics: the
    comics after this one are not visited. *)
Theorem C4_unresolved_title_raises `{Platform} (self : Comic.t) (w : world)
    (max_num num : nat) (todo done : list Comic.t) (total : gset Volume) :
  Comic.url self = PyNone →
  Comic.initial_volumes self ≠ ∅ →
  let t := [Echo (MsgFolder (Comic.path self));
            Echo (MsgUrl PyNone (Comic.last_file self) (Comic.url_from_cbz self));
            Echo MsgNoUrl] in
  Library._needs_skip (Comic.url self) w = (Ok false, w, [])
  ∧ Comic.update self w = (Raise TypeError, w, t)
  ∧ Library.for_comics max_num num (self :: todo) done total w
    = (Raise TypeError, w, Echo (MsgDownloadedComics num max_num) :: t).
Proof.
  intros Hurl Hne t. subst t.
  assert (Comic.update self w
          = (Raise TypeError, w,
             [Echo (MsgFolder (Comic.path self));
              Echo (MsgUrl PyNone (Comic.last_file self) (Comic.url_from_cbz self));
              Echo MsgNoUrl])) as Hupdate.
  { unfold Comic.update, Comic._download_comic. rewrite Hurl.
    rewrite bool_decide_false by done. by run. }
  split; [by rewrite Hurl|]. split; [exact Hupdate|].
  simpl. rewrite bind_unfold. simpl.
  rewrite (bind_pure _ _ _ false) by (by rewrite Hurl).
  by rewrite bind_unfold, Hupdate.
Qed.

Lemma C4_unresolved_title_raises_witness :
  let self := @unresolved idle (fs bare_world) foo in
  @Library._needs_skip idle PyNone bare_world = (Ok false, bare_world, [])
  ∧ @Comic.update idle self bare_world
    = (Raise TypeError, bare_world,
       [Echo (MsgFolder foo);
        Echo (MsgUrl PyNone (Some (foo, "v1.cbz")) false);
        Echo MsgNoUrl])
  ∧ @Library.for_comics idle 1 1 [self] [] ∅ bare_world
    = (Raise TypeError, bare_world,
       [Echo (MsgDownloadedComics 1 1);
        Echo (MsgFolder foo);
        Echo (MsgUrl PyNone (Some (foo, "v1.cbz")) false);
        Echo MsgNoUrl]).
Proof.
  apply (@C4_unresolved_title_raises idle
           (@unresolved idle (fs bare_world) foo) bare_world 1 1 [] [] ∅).
  - reflexivity.
  - has_volume (foo, "v1.cbz").
Defined.

(** The whole command on the two titles of [stalled_world]: [foo] comes
    first, its volume has no [info.txt], its update raises, and [bar],
    though configured, is never fetched. *)
Lemma C4_stalled_run :
  @update_comics idle "lib" stalled_world
  = (Ok (), stalled_world,
     [ZipOpen (Some (foo, "v1.cbz"));
      Echo (MsgZipException (KeyError "info.txt"));
      Echo (MsgDownloadedComics 1 2);
      Echo (MsgFolder foo);
      Echo (MsgUrl PyNone (Some (foo, "v1.cbz")) false);
      Echo MsgNoUrl;
      LoggerCatch TypeError]).
Proof. by vm_compute. Qed.

(** ** C5: a failing tool does not stop the run *)

Section update_steps.
Context `{Platform}.
Implicit Types (self : Comic.t) (w : world).

Lemma _needs_skip_false (url : pyval) w :
Library._needs_skip url w = (Ok false, w, []).
Proof. done. Qed.

(** [update] of a comic with volumes and a string for URL, whatever the
  tool does, as long as the folder is still there afterwards. *)
Lemma update_fetches self w u f' r' fault l m d :
Comic.url self = PyStr u →
Comic.initial_volumes self ≠ ∅ →
manga_py (call_for self u) (fs w) (remote w) = (f', r', fault) →
nodes f' !! Comic.path self = Some (Dir l m d) →
Comic.update self w
= (Ok (Comic.set_downloaded_volumes self
         (scan f' (Comic.path self) ∖ Comic.initial_volumes self)),
   {| fs := f'; remote := r' |},
   [Echo (MsgFolder (Comic.path self));
    Echo (MsgUrl (PyStr u) (Comic.last_file self) (Comic.url_from_cbz self))]
   ++ (if String.eqb u "" then [Echo MsgNoUrl] else [])
   ++ [MangaPy (call_for self u)]
   ++ match fault with
      | Some e => [Echo (MsgDownloadException e)]
      | None => []
      end).
Proof.
intros Hurl Hne Htool E.
unfold Comic.update. rewrite bool_decide_false by done.
rewrite bind_unfold. simpl. rewrite bind_unfold. simpl.
rewrite bind_unfold.
assert (Comic._download_comic self w
        = (Ok (), {| fs := f'; remote := r' |},
           (if String.eqb u "" then [Echo MsgNoUrl] else [])
           ++ [MangaPy (call_for self u)]
           ++ match fault with
              | Some e => [Echo (MsgDownloadException e)]
              | None => []
              end)) as ->.
{ unfold Comic._download_comic, sh_manga_py, run_manga_py. rewrite Hurl.
  run.
  destruct (String.eqb u ""); simpl; fold (call_for self u);
    rewrite Htool; by destruct fault. }
rewrite bind_unfold.
rewrite (_get_actual_comic_volumes_dir self _ l m d) by done.
run. rewrite Hurl. by rewrite !app_nil_r.
Qed.
End update_steps.

(** C5. Let the tool fail with any exception [e] for a comic that has
    volumes and a URL, the folder being still there afterwards.  Then
    [update] returns: the fault is echoed, the folder is scanned again and
    the comic gets what the scan finds beyond its initial volumes.  And
    the loop over the comics goes on: after the line that counts the
    downloads it runs on the comics that follow, from the world the tool
    left, with this comic's new volumes in the total. *)
Theorem C5_fetch_fault_is_isolated `{Platform} (self : Comic.t) (w : world)
    (u : string) (e : exn) (f' : filesystem) (r' : Remote) (l : bool) (m : Z)
    (d : folder) (max_num num : nat) (todo done : list Comic.t)
    (total : gset Volume) :
  Comic.url self = PyStr u →
  Comic.initial_volumes self ≠ ∅ →
  manga_py (call_for self u) (fs w) (remote w) = (f', r', Some e) →
  nodes f' !! Comic.path self = Some (Dir l m d) →
  let w' := {| fs := f'; remote := r' |} in
  let new_volumes := scan f' (Comic.path self) ∖ Comic.initial_volumes self in
  let self' := Comic.set_downloaded_volumes self new_volumes in
  ∃ t,
    Comic.update self w = (Ok self', w', t)
    ∧ last t = Some (Echo (MsgDownloadException e))
    ∧ Library.for_comics max_num num (self :: todo) done total w
      = let '(r, w'', t') :=
          Library.for_comics max_num (S num) todo (done ++ [self'])
            (total ∪ new_volumes) w' in
        (r, w'',
         Echo (MsgDownloadedComics num max_num) :: t
         ++ Echo (MsgDownloadedByComic
                    (Z.of_nat (size (total ∪ new_volumes))
                     - Z.of_nat (size new_volumes))
                    (size new_volumes) (size (total ∪ new_volumes))) :: t').
Proof.
  intros Hurl Hne Htool E w' new_volumes self'.
  pose proof (update_fetches self w u f' r' (Some e) l m d Hurl Hne Htool E)
    as Hupdate.
  eexists. split; [exact Hupdate|]. split.
  { rewrite !app_assoc. by rewrite last_snoc. }
  simpl. rewrite bind_unfold. simpl.
  rewrite (bind_pure _ _ _ false) by apply _needs_skip_false.
  rewrite bind_unfold, Hupdate. rewrite bind_unfold. simpl.
  fold w' new_volumes self'.
  destruct (Library.for_comics max_num (S num) todo (done ++ [self'])
              (total ∪ new_volumes) w') as [[r w''] t'].
  reflexivity.
Qed.

(** ** What resolution leaves alone *)

Section keeps.
Context `{Platform}.
Implicit Types (self : Comic.t) (w : world).

Lemma same_title_refl self : same_title self self.
Proof. by repeat split. Qed.

Lemma same_title_trans self1 self2 self3 :
same_title self1 self2 → same_title self2 self3 → same_title self1 self3.
Proof.
intros (? & ? & ? & ?) (? & ? & ? & ?). repeat split; congruence.
Qed.

Lemma _get_url_from_config_keeps self w self' w' t :
Comic._get_url_from_config self w = (Ok self', w', t) →
same_title self self' ∧ w' = w.
Proof.
destruct (config_of (fs w) (Comic.path self)) as [[|doc]|] eqn:E.
- rewrite (_get_url_from_config_malformed self w E).
  intros [= <- <- <-]. split; [apply same_title_refl|done].
- rewrite (_get_url_from_config_document self w doc E).
  destruct (py_getitem doc "url") as [v|[]];
    intros [= <- <- <-]; by repeat split.
- rewrite (_get_url_from_config_absent self w E).
  intros [= <- <- <-]. split; [apply same_title_refl|done].
Qed.

Lemma _get_url_from_cbz_keeps self w self' w' t :
Comic._get_url_from_cbz self w = (Ok self', w', t) →
same_title self self' ∧ w' = w.
Proof.
rewrite _get_url_from_cbz_eq.
destruct (file_named (fs w) (Comic.last_file self)) as [x|]; [|done].
destruct (f_archive x) as [|[[|text]|]]; try done.
- destruct (re_search_site text); intros [= <- <- <-]; by repeat split.
- intros [= <- <- <-]. by repeat split.
Qed.

Lemma _get_url_keeps self w self' w' t :
Comic._get_url self w = (Ok self', w', t) → same_title self self'.
Proof.
unfold Comic._get_url. rewrite bind_unfold.
destruct (Comic._get_url_from_config self w) as [[[self1|e1] w1] t1] eqn:Hc;
  [|done].
apply _get_url_from_config_keeps in Hc as [Hk1 ->].
destruct (negb (truthy (Comic.url self1))
          && bool_decide (Comic.initial_volumes self1 ≠ ∅)).
- rewrite bind_unfold.
  destruct (Comic._get_url_from_cbz self1 w) as [[[self2|e2] w2] t2] eqn:Hz;
    [|done].
  apply _get_url_from_cbz_keeps in Hz as [Hk2 ->].
  destruct (truthy (Comic.url self2)).
  + rewrite bind_unfold.
    destruct (json_dump _ _ _ _ w) as [[[[]|e3] w3] t3]; [|done].
    intros [= <- <- <-]. by eapply same_title_trans.
  + intros [= <- <- <-]. by eapply same_title_trans.
- intros [= <- <- <-]. done.
Qed.

Lemma __init___path (p : Path) w c w' t :
Comic.__init__ p w = (Ok c, w', t) →
Comic.path c = p ∧ Comic.downloaded_volumes c = ∅.
Proof.
unfold Comic.__init__. rewrite bind_unfold.
destruct (Comic._get_actual_comic_volumes _ w) as [[[vols|e1] w1] t1]; [|done].
rewrite bind_unfold.
destruct (get_last_file vols w1) as [[[last|e2] w2] t2]; [|done].
rewrite bind_unfold.
destruct (Comic._get_url _ w2) as [[[self|e3] w3] t3] eqn:Hurl; [|done].
apply _get_url_keeps in Hurl as (Hp & _).
intros [= <- <- <-]. by split.
Qed.

Lemma __init___initial_volumes `{!PlatformLaws} (p : Path) w c w' t l m d :
nodes (fs w) !! p = Some (Dir l m d) →
Comic.__init__ p w = (Ok c, w', t) →
Comic.initial_volumes c = scan (fs w) p.
Proof.
intros E. rewrite (__init___dir p w l m d E).
destruct (Comic._get_url _ w) as [[[self|e3] w3] t3] eqn:Hurl; [|done].
apply _get_url_keeps in Hurl as (_ & Hi & _).
by intros [= <- <- <-].
Qed.
End keeps.

(** ** C8: the new volumes come from a fresh scan *)

(** C8. Take a comic built in a folder that held volumes, with a string for
    URL, and update it in any later world; let the folder still be there
    when the tool is back, whether the tool failed or not.  Then [update]
    returns, the tool was called, and the comic's new volumes are what a
    scan of the folder finds then, less what the scan at construction had
    found; the scan looks at the entries of the folder itself only.  In
    particular, when the scan then finds the former volumes and a set of
    others, the new volumes are those others. *)
Theorem C8_new_volumes_from_fresh_scan `{Platform} `{!PlatformLaws}
    (p : Path) (w0 w0' : world) (t0 : list event) (c : Comic.t)
    (l0 : bool) (m0 : Z) (d0 : folder)
    (w : world) (u : string) (f' : filesystem) (r' : Remote)
    (fault : option exn) (l : bool) (m : Z) (d : folder) :
  nodes (fs w0) !! p = Some (Dir l0 m0 d0) →
  Comic.__init__ p w0 = (Ok c, w0', t0) →
  scan (fs w0) p ≠ ∅ →
  Comic.url c = PyStr u →
  manga_py (call_for c u) (fs w) (remote w) = (f', r', fault) →
  nodes f' !! p = Some (Dir l m d) →
  ∃ c' t,
    Comic.update c w = (Ok c', {| fs := f'; remote := r' |}, t)
    ∧ MangaPy (call_for c u) ∈ t
    ∧ Comic.downloaded_volumes c' = scan f' p ∖ scan (fs w0) p
    ∧ ∀ added : gset Volume,
        scan f' p = scan (fs w0) p ∪ added →
        added ## scan (fs w0) p →
        Comic.downloaded_volumes c' = added.
Proof.
  intros E0 Hinit Hne Hurl Htool E.
  pose proof (__init___initial_volumes p w0 c w0' t0 l0 m0 d0 E0 Hinit) as Hvols.
  apply __init___path in Hinit as [Hpath _].
  rewrite <- Hpath in E.
  rewrite <- Hvols in Hne.
  pose proof (update_fetches c w u f' r' fault l m d Hurl Hne Htool E) as Hupdate.
  rewrite Hpath, Hvols in Hupdate.
  eexists _, _. split; [exact Hupdate|]. split.
  { rewrite !elem_of_app. right. right. left. apply list_elem_of_singleton. done. }
  split; [done|].
  intros added Hscan Hdisjoint. simpl. rewrite Hscan.
  apply set_eq. intros v. rewrite elem_of_difference, elem_of_union.
  specialize (Hdisjoint v). tauto.
Qed.

Lemma growing_laws : @PlatformLaws growing.
Proof. intros s. reflexivity. Defined.

Lemma C8_new_volumes_from_fresh_scan_witness :
  let c := shelf_comic growing foo in
  let f' := add_volumes [("a.cbz", volume 7 (Zip None));
                         ("b.cbz", volume 8 (Zip None));
                         ("cover.png", volume 8 NotAZip)]
              (call_for c "https://example.test/foo") shelf in
  ∃ c' t,
    @Comic.update growing c (world_of growing shelf tt)
    = (Ok c', world_of growing f' tt, t)
    ∧ MangaPy (call_for c "https://example.test/foo") ∈ t
    ∧ Comic.downloaded_volumes c' = {[ (foo, "a.cbz"); (foo, "b.cbz") ]}.
Proof.
  intros c f'.
  destruct (@C8_new_volumes_from_fresh_scan growing growing_laws
              foo (world_of growing shelf tt) (world_of growing shelf tt) []
              c false 5%Z shelf_folder
              (world_of growing shelf tt) "https://example.test/foo"
              f' tt None false 1000%Z
              {| d_config := d_config shelf_folder;
                 d_files := d_files shelf_folder
                            ++ [("a.cbz", volume 7 (Zip None));
                                ("b.cbz", volume 8 (Zip None));
                                ("cover.png", volume 8 NotAZip)] |})
    as (c' & t & Hupdate & Hcall & _ & Hadded).
  - vm_compute. reflexivity.
  - apply (@__init___configured growing growing_laws foo
             (world_of growing shelf tt)
             (PyDict [("url", PyStr "https://example.test/foo")])).
    + vm_compute. reflexivity.
    + reflexivity.
    + reflexivity.
  - has_volume (foo, "x.cbz").
  - reflexivity.
  - reflexivity.
  - vm_compute. reflexivity.
  - exists c', t. split; [exact Hupdate|]. split; [exact Hcall|].
    assert (glob_cbz f' foo = [(foo, "x.cbz"); (foo, "a.cbz"); (foo, "b.cbz")])
      as Hafter by (vm_compute; reflexivity).
    assert (glob_cbz shelf foo = [(foo, "x.cbz")])
      as Hbefore by (vm_compute; reflexivity).
    apply Hadded; unfold scan; simpl fs; rewrite ?Hafter, Hbefore;
      rewrite !list_to_set_cons, !list_to_set_nil.
    + set_solver.
    + intros v Hv Hx. rewrite elem_of_union, elem_of_singleton in Hx.
      destruct Hx as [->|Hx]; [|by apply elem_of_empty in Hx].
      apply elem_of_union in Hv as [Hv|Hv];
        apply elem_of_singleton in Hv; discriminate Hv.
Defined.

Lemma flaky_laws : @PlatformLaws flaky.
Proof. intros s. reflexivity. Defined.

Lemma C5_fetch_fault_is_isolated_witness :
  let self := shelf_comic flaky foo in
  let f' := add_volumes [("a.cbz", volume 7 (Zip None))]
              (call_for self "https://example.test/foo") shelf in
  let w' := world_of flaky f' tt in
  let new_volumes := scan f' foo ∖ Comic.initial_volumes self in
  let self' := Comic.set_downloaded_volumes self new_volumes in
  ∃ t,
    @Comic.update flaky self flaky_world = (Ok self', w', t)
    ∧ last t = Some (Echo (MsgDownloadException (ErrorReturnCode 1)))
    ∧ @Library.for_comics flaky 2 1 [self; shelf_comic flaky bar] [] ∅
        flaky_world
      = let '(r, w'', t') :=
          @Library.for_comics flaky 2 2 [shelf_comic flaky bar] ([] ++ [self'])
            (∅ ∪ new_volumes) w' in
        (r, w'',
         Echo (MsgDownloadedComics 1 2) :: t
         ++ Echo (MsgDownloadedByComic
                    (Z.of_nat (size (∅ ∪ new_volumes))
                     - Z.of_nat (size new_volumes))
                    (size new_volumes) (size (∅ ∪ new_volumes))) :: t').
Proof.
  intros self f' w' new_volumes self'.
  apply (@C5_fetch_fault_is_isolated flaky self flaky_world
           "https://example.test/foo" (ErrorReturnCode 1) f' tt false 1000%Z
           {| d_config := d_config shelf_folder;
              d_files := d_files shelf_folder
                         ++ [("a.cbz", volume 7 (Zip None))] |}
           2 1 [shelf_comic flaky bar] [] ∅).
  - reflexivity.
  - has_volume (foo, "x.cbz").
  - reflexivity.
  - vm_compute. reflexivity.
Defined.

(** The whole command with the failing tool: both titles are visited, and
    the volume each failed run left is in the total. *)
Lemma C5_flaky_run :
  ∃ w',
    @update_comics flaky "lib" flaky_world
    = (Ok (), w',
       [Echo (MsgDownloadedComics 1 2);
        Echo (MsgFolder foo);
        Echo (MsgUrl (PyStr "https://example.test/foo") (Some (foo, "x.cbz")) false);
        MangaPy (call_for (shelf_comic flaky foo) "https://example.test/foo");
        Echo (MsgDownloadException (ErrorReturnCode 1));
        Echo (MsgDownloadedByComic 0 1 1);
        Echo (MsgDownloadedComics 2 2);
        Echo (MsgFolder bar);
        Echo (MsgUrl (PyStr "https://example.test/foo") (Some (bar, "x.cbz")) false);
        MangaPy (call_for (shelf_comic flaky bar) "https://example.test/foo");
        Echo (MsgDownloadException (ErrorReturnCode 1));
        Echo (MsgDownloadedByComic 1 1 2);
        Echo (MsgDownloadedTotal {[ (foo, "a.cbz"); (bar, "a.cbz") ]})]).
Proof. eexists. vm_compute. reflexivity. Qed.

(** ** The loop of [Library.update] *)

Section loop.
Context `{Platform}.
Implicit Types (self : Comic.t) (w : world) (total : gset Volume).

Lemma update_visited self w self' w' t :
Comic.update self w = (Ok self', w', t) → visited self self'.
Proof.
unfold Comic.update. rewrite bind_unfold. simpl.
destruct (bool_decide (Comic.initial_volumes self = ∅)) eqn:Hempty.
- run. intros [= <- <- <-]. by repeat split.
- apply bool_decide_eq_false in Hempty.
  rewrite bind_unfold. simpl. rewrite bind_unfold.
  destruct (Comic._download_comic self w) as [[[[]|e1] w1] t1]; [|done].
  rewrite bind_unfold.
  destruct (Comic._get_actual_comic_volumes self w1) as [[[vols|e2] w2] t2];
    [|done].
  run. intros [= <- <- <-]. by repeat split.
Qed.

Lemma accumulate_union total (l : list Comic.t) :
accumulate total l = total ∪ ⋃ (Comic.downloaded_volumes <$> l).
Proof.
revert total. induction l as [|c l IH]; intros total; simpl.
- by rewrite (right_id_L ∅ (∪)).
- unfold accumulate in *. simpl. rewrite IH. by rewrite (assoc_L (∪)).
Qed.

Lemma accumulate_app total (l1 l2 : list Comic.t) :
accumulate total (l1 ++ l2) = accumulate (accumulate total l1) l2.
Proof. unfold accumulate. by rewrite foldl_app. Qed.

Lemma accumulate_perm total (l l' : list Comic.t) :
l ≡ₚ l' → accumulate total l = accumulate total l'.
Proof.
intros Hp. rewrite !accumulate_union. f_equal.
apply set_eq. intros v. rewrite !elem_of_union_list.
split; intros (X & HX & Hv); exists X; split; try done.
- by rewrite <- Hp.
- by rewrite Hp.
Qed.

Lemma accumulate_subseteq total (l : list Comic.t) : total ⊆ accumulate total l.
Proof. rewrite accumulate_union. apply union_subseteq_l. Qed.

(** What a run of the loop that returns has done. *)
Lemma for_comics_spec (todo : list Comic.t) :
∀ max_num num done total w done' total' w' t,
  Library.for_comics max_num num todo done total w = (Ok (done', total'), w', t) →
  ∃ todo',
    done' = done ++ todo'
    ∧ Forall2 visited todo todo'
    ∧ total' = accumulate total todo'.
Proof.
induction todo as [|c todo IH]; intros max_num num done total w done' total' w' t.
- simpl. intros [= <- <- <- <-]. exists []. rewrite app_nil_r.
  by repeat split.
- simpl. rewrite bind_unfold. simpl.
  rewrite (bind_pure _ _ _ false) by apply _needs_skip_false.
  rewrite bind_unfold.
  destruct (Comic.update c w) as [[[c'|e1] w1] t1] eqn:Hupdate; [|done].
  apply update_visited in Hupdate.
  rewrite bind_unfold. simpl.
  destruct (Library.for_comics max_num (S num) todo (done ++ [c'])
              (total ∪ Comic.downloaded_volumes c') w1)
    as [[[[done2 total2]|e2] w2] t2] eqn:Hrest; [|done].
  intros [= <- <- <- <-].
  apply IH in Hrest as (todo' & -> & Hvisited & ->).
  exists (c' :: todo'). split; [by rewrite <- app_assoc|].
  split; [by constructor|done].
Qed.

(** The loop over a list in two parts is the loop over the first part and
  then the loop over the second. *)
Lemma for_comics_app (l1 l2 : list Comic.t) :
∀ max_num num done total w,
  Library.for_comics max_num num (l1 ++ l2) done total w
  = match Library.for_comics max_num num l1 done total w with
    | (Ok (done1, total1), w1, t1) =>
        let '(r, w2, t2) :=
          Library.for_comics max_num (num + length l1) l2 done1 total1 w1 in
        (r, w2, t1 ++ t2)
    | (Raise e, w1, t1) => (Raise e, w1, t1)
    end.
Proof.
induction l1 as [|c l1 IH]; intros max_num num done total w.
- simpl. rewrite Nat.add_0_r.
  by destruct (Library.for_comics max_num num l2 done total w) as [[??]?].
- simpl. rewrite !bind_unfold. simpl.
  rewrite !(bind_pure _ _ _ false) by apply _needs_skip_false.
  rewrite !bind_unfold.
  destruct (Comic.update c w) as [[[c'|e1] w1] t1]; [|done].
  rewrite !bind_unfold. simpl. rewrite IH.
  destruct (Library.for_comics max_num (S num) l1 (done ++ [c'])
              (total ∪ Comic.downloaded_volumes c') w1)
    as [[[[done1 total1]|e2] w2] t2]; [|done].
  replace (S num + length l1) with (num + S (length l1)) by lia.
  destruct (Library.for_comics max_num (num + S (length l1)) l2 done1 total1 w2)
    as [[r w3] t3].
  f_equal. simpl. f_equal. by rewrite <- app_assoc.
Qed.

(** What [Library.__init__] builds has downloaded nothing yet. *)
Lemma append_comics_fresh (paths : list Path) :
∀ comics w comics' w' t,
  Library.append_comics paths comics w = (Ok comics', w', t) →
  ∃ new, comics' = comics ++ new
         ∧ Comic.path <$> new = paths
         ∧ Forall (λ c, Comic.downloaded_volumes c = ∅) new.
Proof.
induction paths as [|p paths IH]; intros comics w comics' w' t.
- simpl. intros [= <- <- <-]. exists []. by rewrite app_nil_r.
- simpl. rewrite bind_unfold.
  destruct (Comic.__init__ p w) as [[[c|e] w1] t1] eqn:Hinit; [|done].
  apply __init___path in Hinit as [Hpath Hnone].
  destruct (Library.append_comics paths (comics ++ [c]) w1)
    as [[[comics2|e2] w2] t2] eqn:Hrest; [|done].
  intros [= <- <- <-].
  apply IH in Hrest as (new & -> & Hpaths & Hfresh).
  exists (c :: new). split; [by rewrite <- app_assoc|].
  split; [by rewrite fmap_cons, Hpath, Hpaths|by constructor].
Qed.

Lemma walk_fresh (base_dirs : list string) :
∀ comics w comics' w' t,
  Library.walk base_dirs comics w = (Ok comics', w', t) →
  Forall (λ c, Comic.downloaded_volumes c = ∅) comics →
  Forall (λ c, Comic.downloaded_volumes c = ∅) comics'.
Proof.
induction base_dirs as [|b base_dirs IH]; intros comics w comics' w' t.
- simpl. by intros [= <- <- <-].
- simpl. rewrite bind_unfold.
  destruct (Library.discover b w) as [[[paths|e] w1] t1]; [|done].
  rewrite bind_unfold.
  destruct (Library.append_comics paths comics w1)
    as [[[comics1|e1] w2] t2] eqn:Happend; [|done].
  apply append_comics_fresh in Happend as (new & -> & _ & Hnew).
  destruct (Library.walk base_dirs (comics ++ new) w2)
    as [[[comics2|e2] w3] t3] eqn:Hwalk; [|done].
  intros [= <- <- <-] Hfresh.
  eapply IH; [exact Hwalk|]. by apply Forall_app.
Qed.

Lemma __init___fresh (base_dirs : list string) w (lib : Library.t) w' t :
Library.__init__ base_dirs w = (Ok lib, w', t) →
Library.downloaded_volumes lib = ∅
∧ Forall (λ c, Comic.downloaded_volumes c = ∅) (Library.comics lib).
Proof.
unfold Library.__init__. rewrite bind_unfold.
destruct (Library.walk base_dirs [] w) as [[[comics|e] w1] t1] eqn:Hwalk;
  [|done].
run. intros [= <- <- <-]. split; [done|].
by eapply walk_fresh.
Qed.
End loop.

(** ** C9: the aggregate *)

Section processed.
Context `{Platform}.
Implicit Types (w : world) (total : gset Volume).

(** The loop hands every comic to [Comic.update], in order, each in the
  world the one before left, and unites what they downloaded. *)
Lemma for_comics_updated (todo : list Comic.t) :
∀ max_num num done total w done' total' w' t,
  Library.for_comics max_num num todo done total w = (Ok (done', total'), w', t) →
  ∃ todo',
    done' = done ++ todo'
    ∧ updated_from w todo todo' w'
    ∧ total' = accumulate total todo'.
Proof.
induction todo as [|c todo IH]; intros max_num num done total w done' total' w' t.
- simpl. intros [= <- <- <- <-]. exists []. rewrite app_nil_r.
  split; [done|]. split; [constructor|done].
- simpl. rewrite bind_unfold. simpl.
  rewrite (bind_pure _ _ _ false) by apply _needs_skip_false.
  rewrite bind_unfold.
  destruct (Comic.update c w) as [[[c'|e1] w1] t1] eqn:Hupdate; [|done].
  rewrite bind_unfold. simpl.
  destruct (Library.for_comics max_num (S num) todo (done ++ [c'])
              (total ∪ Comic.downloaded_volumes c') w1)
    as [[[[done2 total2]|e2] w2] t2] eqn:Hrest; [|done].
  intros [= <- <- <- <-].
  apply IH in Hrest as (todo' & -> & Hupdated & ->).
  exists (c' :: todo'). split; [by rewrite <- app_assoc|].
  split; [by econstructor|done].
Qed.

Lemma updated_from_visited w (cs cs' : list Comic.t) w' :
updated_from w cs cs' w' → Forall2 visited cs cs'.
Proof.
induction 1 as [|w c c' w1 t cs cs' w' Hupdate _ IH]; constructor; [|done].
by eapply update_visited.
Qed.

(** A title of the one list has its path in the other. *)
Lemma visited_path_l (cs cs' : list Comic.t) (c : Comic.t) :
Forall2 visited cs cs' → c ∈ cs →
∃ c', c' ∈ cs' ∧ Comic.path c' = Comic.path c.
Proof.
intros Hall Hc. apply list_elem_of_lookup in Hc as [i Hi].
destruct (Forall2_lookup_l _ _ _ _ _ Hall Hi) as (c' & Hi' & Hpath & _).
exists c'. split; [by eapply list_elem_of_lookup_2|done].
Qed.

Lemma visited_path_r (cs cs' : list Comic.t) (c' : Comic.t) :
Forall2 visited cs cs' → c' ∈ cs' →
∃ c, c ∈ cs ∧ Comic.path c' = Comic.path c.
Proof.
intros Hall Hc. apply list_elem_of_lookup in Hc as [i Hi].
destruct (Forall2_lookup_r _ _ _ _ _ Hall Hi) as (c & Hi' & Hpath & _).
exists c. split; [by eapply list_elem_of_lookup_2|done].
Qed.

(** When two runs over the same titles give every title the same
  downloaded volumes, the unions are the same. *)
Lemma union_by_title (cs1 cs2 cs1' cs2' : list Comic.t) :
cs2 ≡ₚ cs1 →
Forall2 visited cs1 cs1' →
Forall2 visited cs2 cs2' →
(∀ c1 c2, c1 ∈ cs1' → c2 ∈ cs2' → Comic.path c1 = Comic.path c2 →
          Comic.downloaded_volumes c1 = Comic.downloaded_volumes c2) →
⋃ (Comic.downloaded_volumes <$> cs2') = ⋃ (Comic.downloaded_volumes <$> cs1').
Proof.
intros Hperm H1 H2 Hsame. apply set_eq. intros x.
rewrite !elem_of_union_list. split.
- intros (X & HX & Hx). apply list_elem_of_fmap in HX as (c2' & -> & Hc2').
  destruct (visited_path_r _ _ _ H2 Hc2') as (c2 & Hc2 & Hp2).
  rewrite Hperm in Hc2.
  destruct (visited_path_l _ _ _ H1 Hc2) as (c1' & Hc1' & Hp1).
  exists (Comic.downloaded_volumes c1').
  split; [by apply list_elem_of_fmap_2|].
  rewrite (Hsame c1' c2' Hc1' Hc2'); [done|congruence].
- intros (X & HX & Hx). apply list_elem_of_fmap in HX as (c1' & -> & Hc1').
  destruct (visited_path_r _ _ _ H1 Hc1') as (c1 & Hc1 & Hp1).
  rewrite <- Hperm in Hc1.
  destruct (visited_path_l _ _ _ H2 Hc1) as (c2' & Hc2' & Hp2).
  exists (Comic.downloaded_volumes c2').
  split; [by apply list_elem_of_fmap_2|].
  rewrite <- (Hsame c1' c2' Hc1' Hc2'); [done|congruence].
Qed.
End processed.

(** C9. Let [Library.update] return on a library that [Library.__init__]
    built.  Then every comic of the library was handed to [Comic.update],
    in order, each in the world the one before left, and the library's set
    of downloaded volumes is the union of the sets these updates gave their
    comics; a comic that had no volumes at construction comes back as it
    was and adds nothing.  The set only grows while the loop runs: on every
    prefix of the comics the loop returns with the comics updated so far,
    which begin the final list, and with their union, which is included in
    the final set and no larger.  And the order of processing does not
    matter for the set: a run over the same titles in another order, from
    whatever world, in which every title gets the same downloaded volumes,
    ends with the same set. *)
Theorem C9_aggregate_is_union `{Platform} (base_dirs : list string)
    (w0 w1 : world) (t0 : list event) (lib : Library.t)
    (w : world) (lib' : Library.t) (w' : world) (t : list event) :
  Library.__init__ base_dirs w0 = (Ok lib, w1, t0) →
  Library.update lib w = (Ok lib', w', t) →
  updated_from w (Library.comics lib) (Library.comics lib') w'
  ∧ Library.downloaded_volumes lib'
    = ⋃ (Comic.downloaded_volumes <$> Library.comics lib')
  ∧ Forall2 (λ c c', Comic.initial_volumes c = ∅ →
                     c' = c ∧ Comic.downloaded_volumes c' = ∅)
      (Library.comics lib) (Library.comics lib')
  ∧ (∀ l1 l2,
       Library.comics lib = l1 ++ l2 →
       ∃ done1 total1 w1' t1 rest,
         Library.for_comics (length (Library.comics lib)) 1 l1 [] ∅ w
         = (Ok (done1, total1), w1', t1)
         ∧ updated_from w l1 done1 w1'
         ∧ Library.comics lib' = done1 ++ rest
         ∧ total1 = ⋃ (Comic.downloaded_volumes <$> done1)
         ∧ total1 ⊆ Library.downloaded_volumes lib'
         ∧ (size total1 ≤ size (Library.downloaded_volumes lib'))%nat)
  ∧ (∀ (lib2 : Library.t) (w2 : world) (lib2' : Library.t) (w2' : world)
       (t2 : list event),
       Library.comics lib2 ≡ₚ Library.comics lib →
       Library.downloaded_volumes lib2 = ∅ →
       Library.update lib2 w2 = (Ok lib2', w2', t2) →
       (∀ c1 c2, c1 ∈ Library.comics lib' → c2 ∈ Library.comics lib2' →
                 Comic.path c1 = Comic.path c2 →
                 Comic.downloaded_volumes c1 = Comic.downloaded_volumes c2) →
       Library.downloaded_volumes lib2' = Library.downloaded_volumes lib').
Proof.
  intros Hinit Hupdate.
  apply __init___fresh in Hinit as [Hnone Hfresh].
  unfold Library.update in Hupdate. rewrite bind_unfold, Hnone in Hupdate.
  destruct (Library.for_comics (length (Library.comics lib)) 1
              (Library.comics lib) [] ∅ w)
    as [[[[done' total']|e] w2] t2] eqn:Hloop; [|done].
  revert Hupdate. run. intros [= <- <- <-]. simpl.
  pose proof Hloop as Hspec.
  apply for_comics_updated in Hspec as (todo' & -> & Hupdated & ->). simpl.
  pose proof (updated_from_visited _ _ _ _ Hupdated) as Hvisited.
  assert (∀ l : list Comic.t,
            accumulate ∅ l = ⋃ (Comic.downloaded_volumes <$> l)) as Hunion.
  { intros l. by rewrite accumulate_union, (left_id_L ∅ (∪)). }
  split; [done|]. split; [by apply Hunion|]. split; [|split].
  - clear Hloop Hupdated.
    induction Hvisited as [|c c' l l' Hc Hl IH]; [constructor|].
    apply Forall_cons in Hfresh as [Hc0 Hfresh].
    constructor; [|by apply IH].
    intros Hempty. destruct Hc as (_ & _ & Hsame).
    by rewrite (Hsame Hempty).
  - intros l1 l2 Hsplit.
    generalize dependent (length (Library.comics lib)). intros n Hloop.
    rewrite Hsplit, for_comics_app in Hloop.
    destruct (Library.for_comics n 1 l1 [] ∅ w)
      as [[[[done1 total1]|e1] w1'] t1] eqn:Hfirst; [|done].
    destruct (Library.for_comics n (1 + length l1) l2 done1 total1 w1')
      as [[[[done2 total2]|e2] w2'] t2'] eqn:Hsecond; [|done].
    injection Hloop as <- <- <- <-.
    apply for_comics_updated in Hfirst as (todo1 & -> & Hupdated1 & ->).
    apply for_comics_updated in Hsecond as (todo2 & Hdone & _ & Htotal).
    exists todo1, (accumulate ∅ todo1), w1', t1, todo2.
    split; [done|]. split; [done|]. split; [done|].
    split; [by apply Hunion|].
    assert (accumulate ∅ todo1 ⊆ total2) as Hsub.
    { rewrite Htotal. apply accumulate_subseteq. }
    split; [done|]. by apply subseteq_size.
  - intros lib2 w2' lib2' w2'' t2' Hperm Hnone2 Hupdate2 Hsame.
    unfold Library.update in Hupdate2. rewrite bind_unfold, Hnone2 in Hupdate2.
    destruct (Library.for_comics (length (Library.comics lib2)) 1
                (Library.comics lib2) [] ∅ w2')
      as [[[[done2 total2]|e] w3] t3] eqn:Hloop2; [|done].
    revert Hupdate2. run. intros [= <- <- <-]. simpl.
    apply for_comics_updated in Hloop2 as (todo2 & -> & Hupdated2 & ->).
    simpl in *. rewrite !Hunion.
    apply (union_by_title (Library.comics lib) (Library.comics lib2));
      [done|done|by eapply updated_from_visited|done].
Qed.

(** ** Discovery *)

Section keyed.
Context {A : Type} (key : A → Z).
Implicit Types (l : list A) (kl : list (Z * A)).

Lemma keyed_fmap kl :
Forall (λ kv, kv.1 = key kv.2) kl → kl = with_key key <$> kl.*2.
Proof.
induction 1 as [|[k x] kl Hk _ IH]; [done|].
rewrite !fmap_cons. f_equal; [|exact IH].
unfold with_key. simpl in *. by rewrite Hk.
Qed.

Lemma sorted_keyed reverse l :
sorted reverse (with_key key <$> l)
= with_key key <$> (sorted reverse (with_key key <$> l)).*2.
Proof.
apply keyed_fmap. rewrite (sorted_perm reverse (with_key key <$> l)).
rewrite Forall_fmap. by apply Forall_true.
Qed.

Lemma strongly_sorted_unkey (R : relation (Z * A)) l :
StronglySorted R (with_key key <$> l) →
StronglySorted (λ x y, R (with_key key x) (with_key key y)) l.
Proof.
induction l as [|x l IH]; [constructor|].
rewrite fmap_cons. inversion_clear 1 as [|?? Hl Hx].
constructor; [by apply IH|]. by rewrite Forall_fmap in Hx.
Qed.

Lemma filter_unkey (m : Z) l :
filter (λ kv : Z * A, kv.1 = m) (with_key key <$> l)
= with_key key <$> filter (λ x, key x = m) l.
Proof.
induction l as [|x l IH]; [done|].
rewrite fmap_cons, !filter_cons. simpl.
destruct (decide (key x = m)); by rewrite IH.
Qed.

(** [sorted] on the values of a key: a permutation, in the order of the
  key, that keeps the values of one key in their order. *)
Lemma sorted_by_key reverse l :
let l' := (sorted reverse (with_key key <$> l)).*2 in
l' ≡ₚ l
∧ StronglySorted (λ x y, key_le reverse (with_key key x) (with_key key y)) l'
∧ ∀ m, filter (λ x, key x = m) l' = filter (λ x, key x = m) l.
Proof.
intros l'. split; [|split].
- unfold l'. rewrite (sorted_perm reverse (with_key key <$> l)).
  rewrite <- list_fmap_compose. by rewrite list_fmap_id.
- apply strongly_sorted_unkey. unfold l'. rewrite <- sorted_keyed.
  apply sorted_sorted.
- intros m.
  assert (Inj (=) (=) (with_key key)) as Hinj by (by intros x y [= ]).
  apply (inj (fmap (with_key key))).
  rewrite <- !filter_unkey. unfold l'. rewrite <- sorted_keyed.
  apply sorted_stable.
Qed.
End keyed.

Section discovery.
Context `{Platform}.
Implicit Types (w : world) (p : Path).

Lemma stat_mtime_eq p w :
stat_mtime p w
= match stat_of (fs w) p with
  | Some m => (Ok m, w, [])
  | None => (Raise FileNotFoundError, w, [])
  end.
Proof.
unfold stat_mtime, stat_of. run.
by destruct (nodes (fs w) !! p) as [[| |]|].
Qed.

(** The keys of a sort that got all of them. *)
Lemma with_keys_stat (l : list Path) w keyed w' t :
with_keys stat_mtime l w = (Ok keyed, w', t) →
w' = w ∧ t = [] ∧ keyed = with_key (node_mtime (fs w)) <$> l.
Proof.
revert keyed w' t. induction l as [|p l IH]; intros keyed w' t.
- simpl. by intros [= <- <- <-].
- simpl. rewrite bind_unfold, stat_mtime_eq.
  destruct (stat_of (fs w) p) as [m|] eqn:Hstat; [|done].
  rewrite bind_unfold.
  destruct (with_keys stat_mtime l w) as [[[keyed'|e] w1] t1] eqn:Hrest;
    [|done].
  destruct (IH _ _ _ eq_refl) as (-> & -> & ->).
  run. intros [= <- <- <-]. repeat split.
  f_equal. unfold with_key, node_mtime. by rewrite Hstat.
Qed.

Lemma with_keys_stat_total (l : list Path) w :
Forall (λ p, is_Some (stat_of (fs w) p)) l →
with_keys stat_mtime l w
= (Ok (with_key (node_mtime (fs w)) <$> l), w, []).
Proof.
intros Hl. apply with_keys_ok. intros p Hp.
rewrite Forall_forall in Hl. destruct (Hl p Hp) as [m Hm].
rewrite stat_mtime_eq. unfold node_mtime. by rewrite Hm.
Qed.

Lemma glob_star_eq (base : string) w :
glob_star base w = (Ok (children (fs w) base), w, []).
Proof. done. Qed.

(** What [discover] returns when it returns. *)
Lemma discover_returns (base : string) w paths w' t :
Library.discover base w = (Ok paths, w', t) →
w' = w ∧ t = []
∧ paths = (sorted true (with_key (node_mtime (fs w))
                          <$> children (fs w) base)).*2.
Proof.
unfold Library.discover.
rewrite (bind_pure _ _ _ _ (glob_star_eq base w)).
rewrite bind_unfold.
destruct (with_keys stat_mtime (children (fs w) base) w)
  as [[[keyed|e] w1] t1] eqn:Hkeys; [|done].
apply with_keys_stat in Hkeys as (-> & -> & ->).
run. by intros [= <- <- <-].
Qed.

Lemma discover_total (base : string) w :
Forall (λ p, is_Some (stat_of (fs w) p)) (children (fs w) base) →
Library.discover base w
= (Ok (sorted true (with_key (node_mtime (fs w))
                      <$> children (fs w) base)).*2, w, []).
Proof.
intros Hstat. unfold Library.discover.
rewrite (bind_pure _ _ _ _ (glob_star_eq base w)).
by rewrite (bind_pure _ _ _ _ (with_keys_stat_total _ w Hstat)).
Qed.

(** The comics of a library over one base directory are those of the
  paths discovered, in their order. *)
Lemma __init___paths (base : string) w (lib : Library.t) w' t :
Library.__init__ [base] w = (Ok lib, w', t) →
∃ paths, Library.discover base w = (Ok paths, w, [])
         ∧ Comic.path <$> Library.comics lib = paths.
Proof.
unfold Library.__init__. rewrite bind_unfold. simpl.
rewrite bind_unfold.
destruct (Library.discover base w) as [[[paths|e] w1] t1] eqn:Hdisc; [|done].
destruct (discover_returns _ _ _ _ _ Hdisc) as (-> & -> & _).
rewrite bind_unfold.
destruct (Library.append_comics paths [] w)
  as [[[comics|e1] w2] t2] eqn:Happend; [|done].
apply append_comics_fresh in Happend as (new & -> & Hpaths & _).
run. intros [= <- <- <-]. exists paths. by split.
Qed.
End discovery.

(** ** C6: the order of discovery *)

(** C6, as amended. When every child of a base directory can be
    [stat]ed, discovery returns the children, each once, with no child
    before one touched later: most recently touched first.  Children
    touched at the same time stay in the order in which the directory
    listing gave them.  A library over that base directory has its comics
    in this order. *)
Theorem C6_discovery_order `{Platform} (base : string) (w : world) :
  Forall (λ p, is_Some (stat_of (fs w) p)) (children (fs w) base) →
  ∃ paths,
    Library.discover base w = (Ok paths, w, [])
    ∧ paths ≡ₚ children (fs w) base
    ∧ StronglySorted (λ x y, (node_mtime (fs w) y ≤ node_mtime (fs w) x)%Z) paths
    ∧ (∀ m, filter (λ p, node_mtime (fs w) p = m) paths
            = filter (λ p, node_mtime (fs w) p = m) (children (fs w) base))
    ∧ (∀ lib w' t,
         Library.__init__ [base] w = (Ok lib, w', t) →
         Comic.path <$> Library.comics lib = paths).
Proof.
  intros Hstat. eexists. split; [by apply discover_total|].
  destruct (sorted_by_key (node_mtime (fs w)) true (children (fs w) base))
    as (Hperm & Hsorted & Hstable).
  split; [done|]. split; [done|]. split; [done|].
  intros lib w' t Hinit.
  apply __init___paths in Hinit as (paths & Hdisc & <-).
  rewrite (discover_total base w Hstat) in Hdisc. by injection Hdisc as <-.
Qed.

Lemma C6_discovery_order_witness :
  ∃ paths,
    @Library.discover idle "lib" stalled_world = (Ok paths, stalled_world, [])
    ∧ paths ≡ₚ children (fs stalled_world) "lib"
    ∧ StronglySorted (λ x y, (node_mtime (fs stalled_world) y
                              ≤ node_mtime (fs stalled_world) x)%Z) paths
    ∧ (∀ m, filter (λ p, node_mtime (fs stalled_world) p = m) paths
            = filter (λ p, node_mtime (fs stalled_world) p = m)
                (children (fs stalled_world) "lib"))
    ∧ (∀ lib w' t,
         @Library.__init__ idle ["lib"] stalled_world = (Ok lib, w', t) →
         Comic.path <$> Library.comics lib = paths).
Proof.
  apply (@C6_discovery_order idle "lib" stalled_world).
  repeat constructor; vm_compute; by eexists.
Defined.

(** C6 as stated fails on the tie-break: of two children touched at the
    same time, [b] listed before [a], discovery returns [b] first. *)
Lemma C6_counterexample :
  @Library.discover idle "lib" tied_world
  = (Ok [("lib", "b"); ("lib", "a")], tied_world, [])
  ∧ node_mtime (fs tied_world) ("lib", "b") = node_mtime (fs tied_world) ("lib", "a")
  ∧ ¬ ties_by_name (fs tied_world) [("lib", "b"); ("lib", "a")].
Proof.
  split; [by vm_compute|]. split; [by vm_compute|].
  intros Hties.
  specialize (Hties 0%nat 1%nat ("lib", "b") ("lib", "a")).
  assert (String.leb "b" "a" = true) as Hleb.
  { apply Hties; [lia|done|done|by vm_compute]. }
  vm_compute in Hleb. discriminate Hleb.
Qed.

Lemma C9_aggregate_is_union_witness :
  ∃ lib' w' t,
    @Library.update growing (shelf_library growing) growing_world = (Ok lib', w', t)
    ∧ updated_from growing_world [shelf_comic growing foo; shelf_comic growing bar]
        (Library.comics lib') w'
    ∧ Library.downloaded_volumes lib'
      = ⋃ (Comic.downloaded_volumes <$> Library.comics lib').
Proof.
  assert (∃ lib' w' t,
            @Library.update growing (shelf_library growing) growing_world
            = (Ok lib', w', t)) as (lib' & w' & t & Hupdate)
    by (eexists _, _, _; vm_compute; reflexivity).
  exists lib', w', t. split; [exact Hupdate|].
  destruct (@C9_aggregate_is_union growing ["lib"] growing_world growing_world []
              (shelf_library growing) growing_world lib' w' t)
    as (Hupdated & Hunion & _).
  - vm_compute. reflexivity.
  - exact Hupdate.
  - by split.
Defined.

(** The run of the witness: both titles are fetched, and the total is
    what the two fetches brought. *)
Lemma C9_growing_run :
  ∃ w',
    @update_comics growing "lib" growing_world
    = (Ok (), w',
       [Echo (MsgDownloadedComics 1 2);
        Echo (MsgFolder foo);
        Echo (MsgUrl (PyStr "https://example.test/foo") (Some (foo, "x.cbz")) false);
        MangaPy (call_for (shelf_comic growing foo) "https://example.test/foo");
        Echo (MsgDownloadedByComic 0 2 2);
        Echo (MsgDownloadedComics 2 2);
        Echo (MsgFolder bar);
        Echo (MsgUrl (PyStr "https://example.test/foo") (Some (bar, "x.cbz")) false);
        MangaPy (call_for (shelf_comic growing bar) "https://example.test/foo");
        Echo (MsgDownloadedByComic 2 2 4);
        Echo (MsgDownloadedTotal {[ (foo, "a.cbz"); (foo, "b.cbz");
                                    (bar, "a.cbz"); (bar, "b.cbz") ]})]).
Proof. eexists. vm_compute. reflexivity. Qed.



(** * Further properties of the code *)

(** ** [get_last_file] *)

(** X1. On a set of files that are all there, [get_last_file] only reads:
    it returns nothing for the empty set and otherwise an element of the
    set than which none was modified later. *)
Theorem X1_get_last_file_most_recent `{Platform} `{!PlatformLaws}
    (paths : gset Volume) (w : world) :
  (∀ v, v ∈ paths → is_Some (volume_file (fs w) v)) →
  ∃ r,
    get_last_file paths w = (Ok r, w, [])
    ∧ (paths = ∅ → r = None)
    ∧ (paths ≠ ∅ →
       ∃ v, r = Some v ∧ v ∈ paths
            ∧ ∀ v', v' ∈ paths → (volume_mtime (fs w) v' ≤ volume_mtime (fs w) v)%Z).
Proof.
  intros Hfiles. exists (last_of (fs w) paths).
  split; [by apply get_last_file_eq|]. split.
  - intros ->. apply last_of_empty.
  - intros Hne.
    destruct (last_of_most_recent (fs w) paths Hne) as (v & Hv & Hin & Hmax).
    by exists v.
Qed.

Lemma X1_get_last_file_most_recent_witness :
  ∃ r,
    @get_last_file idle (scan (fs inferable_world) foo) inferable_world
    = (Ok r, inferable_world, [])
    ∧ (scan (fs inferable_world) foo = ∅ → r = None)
    ∧ (scan (fs inferable_world) foo ≠ ∅ →
       ∃ v, r = Some v ∧ v ∈ scan (fs inferable_world) foo
            ∧ ∀ v', v' ∈ scan (fs inferable_world) foo →
                    (volume_mtime (fs inferable_world) v'
                     ≤ volume_mtime (fs inferable_world) v)%Z).
Proof.
  apply (@X1_get_last_file_most_recent idle idle_laws).
  intros v. apply scan_volume_file.
Defined.

Lemma with_keys_stat_volume_raises `{Platform} (l : list Volume) (w : world) :
  (∃ v, v ∈ l ∧ volume_file (fs w) v = None) →
  with_keys stat_volume l w = (Raise FileNotFoundError, w, []).
Proof.
  induction l as [|v0 l IH]; intros (v & Hin & Hnone).
  - by apply elem_of_nil in Hin.
  - simpl. rewrite bind_unfold.
    destruct (volume_file (fs w) v0) as [x|] eqn:Hv0.
    + rewrite stat_volume_ok by (by eexists). rewrite bind_unfold, IH; [done|].
      apply elem_of_cons in Hin as [->|Hin]; [congruence|by exists v].
    + unfold stat_volume. run. by rewrite Hv0.
Qed.

(** X2. When a path of the set names no file, [get_last_file] raises
    [FileNotFoundError]: the key of the sort is computed for every
    element. *)
Theorem X2_get_last_file_missing `{Platform} `{!PlatformLaws}
    (paths : gset Volume) (w : world) (v : Volume) :
  v ∈ paths →
  volume_file (fs w) v = None →
  get_last_file paths w = (Raise FileNotFoundError, w, []).
Proof.
  intros Hin Hnone. unfold get_last_file.
  rewrite decide_True by (intros ->; by apply elem_of_empty in Hin).
  rewrite bind_unfold, with_keys_stat_volume_raises; [done|].
  exists v. split; [|done].
  by rewrite (set_iter_elements paths), elem_of_elements.
Qed.

Lemma X2_get_last_file_missing_witness :
  @get_last_file idle {[ (foo, "gone.cbz") ]} inferable_world
  = (Raise FileNotFoundError, inferable_world, []).
Proof.
  apply (@X2_get_last_file_missing idle idle_laws _ _ (foo, "gone.cbz")).
  - by apply elem_of_singleton.
  - vm_compute. reflexivity.
Defined.

(** ** Reading [info.json] *)

Lemma py_getitem_missing (items : list (string * pyval)) (key : string) :
  key ∉ items.*1 → py_getitem (PyDict items) key = Raise (KeyError key).
Proof.
  intros Hkey. unfold py_getitem.
  destruct (list_find _ items) as [[i [k v]]|] eqn:Hfind; [|done].
  apply list_find_Some in Hfind as (Hi & Hk & _). simpl in Hk. subst k.
  exfalso. apply Hkey. apply list_elem_of_fmap. exists (key, v).
  split; [done|]. by eapply list_elem_of_lookup_2.
Qed.

(** X3. An [info.json] that does not parse, or that holds an object
    without the key [url], is reported and otherwise ignored: the comic is
    returned as it was, and nothing is raised or changed. *)
Theorem X3_config_fault_recovered `{Platform} (self : Comic.t) (w : world) :
  config_of (fs w) (Comic.path self) = Some Malformed
  ∨ (∃ items, config_of (fs w) (Comic.path self) = Some (Document (PyDict items))
              ∧ "url" ∉ items.*1) →
  ∃ e, Comic._get_url_from_config self w
       = (Ok self, w, [Echo (MsgConfigException e)])
       ∧ (e = JSONDecodeError ∨ e = KeyError "url").
Proof.
  intros [Hbad|(items & Hdoc & Hkey)].
  - exists JSONDecodeError. split; [|by left].
    by apply _get_url_from_config_malformed.
  - exists (KeyError "url"). split; [|by right].
    rewrite (_get_url_from_config_document self w _ Hdoc).
    by rewrite (py_getitem_missing items "url" Hkey).
Qed.

Lemma X3_config_fault_recovered_witness :
  ∃ e, @Comic._get_url_from_config idle (unfetched foo) keyless_world
       = (Ok (unfetched foo), keyless_world, [Echo (MsgConfigException e)])
       ∧ (e = JSONDecodeError ∨ e = KeyError "url").
Proof.
  apply (@X3_config_fault_recovered idle (unfetched foo) keyless_world).
  right. exists [("site", PyStr "x")]. split; [vm_compute; reflexivity|].
  intros Hin. apply list_elem_of_singleton in Hin. discriminate Hin.
Defined.

(** X4. An [info.json] that parses to something that is not an object
    (a list, a string, a number, [null]) is not recovered from:
    [comic_config['url']] raises [TypeError], which the handler does not
    catch, so building the comic raises it. *)
Theorem X4_config_not_an_object_raises `{Platform} `{!PlatformLaws}
    (p : Path) (w : world) (l : bool) (m : Z) (d : folder) (doc : pyval) :
  nodes (fs w) !! p = Some (Dir l m d) →
  d_config d = Some (Document doc) →
  (∀ items, doc ≠ PyDict items) →
  Comic.__init__ p w = (Raise TypeError, w, []).
Proof.
  intros E Hdoc Hnot. rewrite (__init___dir p w l m d E).
  unfold Comic._get_url. rewrite bind_unfold.
  rewrite (_get_url_from_config_document (unresolved (fs w) p) w doc).
  - destruct doc; try done. by destruct (Hnot items).
  - simpl. by rewrite (config_of_Dir _ _ l m d E).
Qed.

Lemma X4_config_not_an_object_raises_witness :
  @Comic.__init__ idle foo listed_world = (Raise TypeError, listed_world, []).
Proof.
  apply (@X4_config_not_an_object_raises idle idle_laws foo listed_world
           false 5%Z
           {| d_config := Some (Document (PyList [PyStr "https://example.test/foo"]));
              d_files := [] |}
           (PyList [PyStr "https://example.test/foo"])).
  - vm_compute. reflexivity.
  - reflexivity.
  - discriminate.
Defined.

(** ** Reading the archive *)

(** X5. In a folder without usable configuration whose most recent volume
    is not an archive, building the comic opens that file and raises
    [BadZipFile]: the handler of [_get_url_from_cbz] catches [KeyError]
    only. *)
Theorem X5_corrupt_archive_raises `{Platform} `{!PlatformLaws}
    (p : Path) (w : world) (l : bool) (m : Z) (d : folder) :
  nodes (fs w) !! p = Some (Dir l m d) →
  d_config d = None →
  scan (fs w) p ≠ ∅ →
  (∀ v, most_recent (fs w) (scan (fs w) p) v →
        ∃ x, volume_file (fs w) v = Some x ∧ f_archive x = NotAZip) →
  ∃ last,
    most_recent (fs w) (scan (fs w) p) last
    ∧ Comic.__init__ p w = (Raise BadZipFile, w, [ZipOpen (Some last)]).
Proof.
  intros E Hnone Hne Hbad.
  destruct (last_of_most_recent (fs w) (scan (fs w) p) Hne)
    as (last & Hlast & Hrecent).
  destruct (Hbad last Hrecent) as (x & Hx & Harch).
  exists last. split; [done|].
  rewrite (__init___dir p w l m d E). unfold Comic._get_url.
  rewrite (bind_pure _ _ _ (unresolved (fs w) p)).
  2:{ apply _get_url_from_config_absent. simpl.
      by rewrite (config_of_Dir _ _ l m d E). }
  simpl. rewrite bool_decide_true by done.
  rewrite bind_unfold, _get_url_from_cbz_eq. simpl.
  rewrite Hlast. simpl. by rewrite Hx, Harch.
Qed.

Lemma X5_corrupt_archive_raises_witness :
  ∃ last,
    most_recent (fs broken_world) (scan (fs broken_world) foo) last
    ∧ @Comic.__init__ idle foo broken_world
      = (Raise BadZipFile, broken_world, [ZipOpen (Some last)]).
Proof.
  apply (@X5_corrupt_archive_raises idle idle_laws foo broken_world
           false 5%Z broken_folder).
  - vm_compute. reflexivity.
  - reflexivity.
  - has_volume (foo, "v1.cbz").
  - intros v [Hin _].
    assert (glob_cbz (fs broken_world) foo = (λ n, (foo, n)) <$> ["v1.cbz"])
      as Hglob by (vm_compute; reflexivity).
    destruct (scan_foo_cases _ v _ Hglob Hin) as (n & Hn & ->).
    apply list_elem_of_singleton in Hn as ->.
    eexists. split; [vm_compute; reflexivity|]. reflexivity.
Defined.

(** ** The pattern *)

Lemma strip_prefix_Some (p s r : string) :
  strip_prefix p s = Some r → s = p +:+ r.
Proof.
  revert s. induction p as [|a p IH]; intros s; simpl.
  - by intros [= ->].
  - destruct s as [|b s]; [done|].
    destruct (Ascii.eqb_spec a b) as [->|]; [|done].
    intros Hs. by rewrite (IH s Hs).
Qed.

Lemma strip_prefix_app_Some (p s r t : string) :
  strip_prefix p s = Some r → strip_prefix p (s +:+ t) = Some (r +:+ t).
Proof.
  intros Hs. apply strip_prefix_Some in Hs as ->.
  induction p as [|a p IH]; simpl; [done|].
  by rewrite Ascii.eqb_refl.
Qed.

Lemma rest_of_line_split (s : string) :
  ∃ rest,
    s = rest_of_line s +:+ rest
    ∧ str_contains newline (rest_of_line s) = false
    ∧ (rest = "" ∨ ∃ r, rest = newline +:+ r).
Proof.
  induction s as [|c s (rest & Hs & Hline & Hrest)]; simpl.
  - exists "". repeat split; by left.
  - destruct (Ascii.eqb_spec c "010") as [->|Hc].
    + exists (String "010" s). repeat split. right. by exists s.
    + exists rest. split; [|split; [|done]].
      { change (String c s = String c (rest_of_line s +:+ rest)).
        f_equal. exact Hs. }
      rewrite str_contains_unfold. simpl.
      destruct (Ascii.eqb_spec "010" c) as [<-|_]; [done|].
      exact Hline.
Qed.

(** X6. The search finds [u] exactly when the text has its first
    ["Site: "] right before [u] and [u] runs to the end of that line; the
    occurrence may stand anywhere in its line, and nothing is trimmed.  It
    finds nothing exactly when the text does not contain ["Site: "]. *)
Theorem X6_search_is_first_site_line (text : string) :
  (∀ u, re_search_site text = Some u ↔ first_site_line text u)
  ∧ (re_search_site text = None ↔ str_contains "Site: " text = false).
Proof.
  assert (∀ u, re_search_site text = Some u → first_site_line text u) as Hfound.
  { induction text as [|c text IH]; intros u; rewrite re_search_site_unfold.
    - done.
    - destruct (strip_prefix "Site: " (String c text)) as [r|] eqn:Hstrip.
      + intros [= <-]. apply strip_prefix_Some in Hstrip.
        destruct (rest_of_line_split r) as (rest & Hr & Hline & Hrest).
        exists "", rest. split; [|done].
        rewrite Hstrip. simpl. by rewrite <- Hr.
      + intros Hu. destruct (IH u Hu) as (pre & rest & -> & Hpre & Hline & Hrest).
        exists (String c pre), rest. split; [done|]. split; [|done].
        rewrite str_contains_unfold.
        destruct (strip_prefix "Site: " (String c pre)) as [r|] eqn:Hpre'; [|done].
        apply (strip_prefix_app_Some _ _ _ ("Site: " +:+ u +:+ rest)) in Hpre'.
        simpl in Hpre', Hstrip. congruence. }
  split.
  - intros u. split; [apply Hfound|apply re_search_site_first].
  - split.
    + intros Hnone. destruct (str_contains "Site: " text) eqn:Hc; [|done].
      exfalso. clear Hfound. induction text as [|c text IH].
      * done.
      * rewrite re_search_site_unfold in Hnone.
        rewrite str_contains_unfold in Hc.
        destruct (strip_prefix "Site: " (String c text)); [done|]. by apply IH.
    + apply re_search_site_none.
Qed.

(** ** Construction keeps to its folder *)

Section locality.
Context `{Platform}.
Implicit Types (p : Path) (w : world).

Lemma untouched_refl p w : untouched_outside p w w.
Proof. by repeat split. Qed.

Lemma untouched_trans p w1 w2 w3 :
untouched_outside p w1 w2 → untouched_outside p w2 w3 →
untouched_outside p w1 w3.
Proof.
intros (? & ? & ? & Hn1) (? & ? & ? & Hn2).
repeat split; try congruence.
intros q Hq. by rewrite Hn2, Hn1.
Qed.

Lemma local_ret {A} p (a : A) : local_to p (mret a).
Proof. intros w r w' t [= <- <- <-]. split; [apply untouched_refl|constructor]. Qed.

Lemma local_raise {A} p e : local_to p (raise (A:=A) e).
Proof. intros w r w' t [= <- <- <-]. split; [apply untouched_refl|constructor]. Qed.

Lemma local_lift {A} p (x : result A) : local_to p (lift x).
Proof. intros w r w' t [= <- <- <-]. split; [apply untouched_refl|constructor]. Qed.

Lemma local_get_fs p : local_to p get_fs.
Proof. intros w r w' t [= <- <- <-]. split; [apply untouched_refl|constructor]. Qed.

Lemma local_emit p e : construction_event p e → local_to p (emit e).
Proof.
intros He w r w' t [= <- <- <-].
split; [apply untouched_refl|by repeat constructor].
Qed.

Lemma local_echo p m : local_to p (echo m).
Proof. by apply local_emit. Qed.

Lemma local_bind {A B} p (m : M A) (f : A → M B) :
local_to p m → (∀ a, local_to p (f a)) → local_to p (m ≫= f).
Proof.
intros Hm Hf w r w' t. rewrite bind_unfold.
destruct (m w) as [[[a|e] w1] t1] eqn:Hrun.
- destruct (f a w1) as [[r2 w2] t2] eqn:Hrun2. intros [= <- <- <-].
  destruct (Hm _ _ _ _ Hrun) as [Hw1 Ht1].
  destruct (Hf a _ _ _ _ Hrun2) as [Hw2 Ht2].
  split; [by eapply untouched_trans|by apply Forall_app].
- intros [= <- <- <-]. by eapply Hm.
Qed.

Lemma local_try {A} p (body : M A) classes (handler : exn → M A) :
local_to p body → (∀ e, local_to p (handler e)) →
local_to p (try_except body classes handler).
Proof.
intros Hm Hh w r w' t. unfold try_except.
destruct (body w) as [[[a|e] w1] t1] eqn:Hrun.
- intros [= <- <- <-]. by eapply Hm.
- destruct (classes e).
  + destruct (handler e w1) as [[r2 w2] t2] eqn:Hrun2. intros [= <- <- <-].
    destruct (Hm _ _ _ _ Hrun) as [Hw1 Ht1].
    destruct (Hh e _ _ _ _ Hrun2) as [Hw2 Ht2].
    split; [by eapply untouched_trans|by apply Forall_app].
  + intros [= <- <- <-]. by eapply Hm.
Qed.

Lemma local_mkdir p : local_to p (mkdir p).
Proof.
intros w r w' t. unfold mkdir. run.
destruct (nodes (fs w) !! p); intros [= <- <- <-].
- split; [apply untouched_refl|constructor].
- split; [|by repeat constructor].
  repeat split. intros q Hq. simpl. by rewrite lookup_insert_ne.
Qed.

Lemma local_json_dump p doc sort_keys indent :
local_to p (json_dump doc p sort_keys indent).
Proof.
intros w r w' t. unfold json_dump. run.
destruct (nodes (fs w) !! p) as [[| |]|]; intros [= <- <- <-];
  try (split; [apply untouched_refl|constructor]).
split; [|by repeat constructor].
repeat split. intros q Hq. simpl. by rewrite lookup_insert_ne.
Qed.

(** A step that returns or raises without doing anything. *)
Lemma local_inert {A} p (m : M A) :
(∀ w, ∃ r, m w = (r, w, [])) → local_to p m.
Proof.
intros Hm w r w' t. destruct (Hm w) as [r0 ->]. intros [= <- <- <-].
split; [apply untouched_refl|constructor].
Qed.

Lemma inert_stat_volume (v : Volume) w : ∃ r, stat_volume v w = (r, w, []).
Proof.
unfold stat_volume. run. destruct (volume_file (fs w) v); by eexists.
Qed.

Lemma inert_with_keys {A} (key : A → M Z) (l : list A) w :
(∀ x w, ∃ r, key x w = (r, w, [])) → ∃ r, with_keys key l w = (r, w, []).
Proof.
intros Hkey. induction l as [|x l [r IH]]; simpl; [by eexists|].
rewrite bind_unfold. destruct (Hkey x w) as [[k|e] ->]; [|by eexists].
rewrite bind_unfold, IH. destruct r; by eexists.
Qed.

Lemma local_get_last_file p (paths : gset Volume) :
local_to p (get_last_file paths).
Proof.
apply local_inert. intros w. unfold get_last_file.
destruct (decide (paths ≠ ∅)); [|by eexists].
rewrite bind_unfold.
destruct (inert_with_keys stat_volume (set_iter paths) w inert_stat_volume)
  as [[keyed|e] ->]; [|by eexists].
destruct (last (sorted false keyed)); by eexists.
Qed.

Lemma local__get_actual_comic_volumes (self : Comic.t) :
local_to (Comic.path self) (Comic._get_actual_comic_volumes self).
Proof.
unfold Comic._get_actual_comic_volumes.
apply local_bind; [by apply local_inert; eexists|]. intros [|].
- by apply local_inert; eexists.
- apply local_bind; [by apply local_inert; eexists|]. intros [|].
  + apply local_bind; [apply local_echo|]. intros _. apply local_ret.
  + apply local_bind; [apply local_mkdir|]. intros _. apply local_ret.
Qed.

Lemma local__get_url_from_config (self : Comic.t) :
local_to (Comic.path self) (Comic._get_url_from_config self).
Proof.
unfold Comic._get_url_from_config.
apply local_bind; [by apply local_inert; eexists|]. intros [|];
  [|apply local_ret].
apply local_try.
- apply local_bind.
  + apply local_inert. intros w. unfold json_load. run.
    destruct (config_of (fs w) (Comic.path self)) as [[|]|]; by eexists.
  + intros doc. apply local_bind; [apply local_lift|].
    intros u. apply local_ret.
- intros e. apply local_bind; [apply local_echo|]. intros _. apply local_ret.
Qed.

Lemma local__get_url_from_cbz (self : Comic.t) :
local_to (Comic.path self) (Comic._get_url_from_cbz self).
Proof.
unfold Comic._get_url_from_cbz. apply local_try.
- apply local_bind.
  + unfold ZipFile. apply local_bind; [by apply local_emit|]. intros _.
    apply local_inert. intros w. run.
    destruct (file_named (fs w) (Comic.last_file self)) as [x|]; [|by eexists].
    destruct (f_archive x); by eexists.
  + intros z. apply local_bind.
    * destruct z; [apply local_ret|apply local_raise].
    * intros info. apply local_bind.
      -- destruct info; [apply local_raise|apply local_ret].
      -- intros content. destruct (re_search_site content); apply local_ret.
- intros e. apply local_bind; [apply local_echo|]. intros _. apply local_ret.
Qed.

Lemma local__get_url (self : Comic.t) :
local_to (Comic.path self) (Comic._get_url self).
Proof.
unfold Comic._get_url. intros w r w' t. rewrite bind_unfold.
destruct (Comic._get_url_from_config self w) as [[[self1|e1] w1] t1] eqn:Hc.
2:{ intros [= <- <- <-]. by eapply local__get_url_from_config. }
pose proof (local__get_url_from_config self _ _ _ _ Hc) as [Hw1 Ht1].
apply _get_url_from_config_keeps in Hc as [(Hp1 & _) ->].
destruct (negb (truthy (Comic.url self1))
          && bool_decide (Comic.initial_volumes self1 ≠ ∅)).
2:{ intros [= <- <- <-]. split; [done|]. by rewrite app_nil_r. }
rewrite bind_unfold.
destruct (Comic._get_url_from_cbz self1 w) as [[[self2|e2] w2] t2] eqn:Hz.
2:{ intros [= <- <- <-].
    destruct (local__get_url_from_cbz self1 _ _ _ _ Hz) as [Hw2 Ht2].
    rewrite Hp1 in *. split; [done|by apply Forall_app]. }
pose proof (local__get_url_from_cbz self1 _ _ _ _ Hz) as [Hw2 Ht2].
apply _get_url_from_cbz_keeps in Hz as [(Hp2 & _) ->].
rewrite Hp1 in *.
destruct (truthy (Comic.url self2)).
2:{ intros [= <- <- <-]. split; [done|].
    apply Forall_app. split; [done|]. by rewrite app_nil_r. }
rewrite bind_unfold.
destruct (json_dump _ (Comic.path self2) true 4 w) as [[[[]|e3] w3] t3] eqn:Hd;
  intros [= <- <- <-];
  destruct (local_json_dump _ _ _ _ _ _ _ _ Hd) as [Hw3 Ht3];
  rewrite Hp2 in *; (split; [done|]);
  rewrite ?app_nil_r; repeat (apply Forall_app; split); done.
Qed.

Lemma local___init__ p : local_to p (Comic.__init__ p).
Proof.
unfold Comic.__init__.
apply local_bind.
{ apply (local__get_actual_comic_volumes (Comic.Build_t p ∅ None PyNone false ∅)). }
intros volumes. apply local_bind; [apply local_get_last_file|].
intros last. apply local_bind.
{ apply (local__get_url (Comic.Build_t p volumes last PyNone false ∅)). }
intros self. apply local_ret.
Qed.
End locality.


(** ** What stops the construction of a library *)

Lemma with_keys_stat_mtime_raises `{Platform} (l : list Path) (w : world) :
  (∃ p, p ∈ l ∧ stat_of (fs w) p = None) →
  with_keys stat_mtime l w = (Raise FileNotFoundError, w, []).
Proof.
  induction l as [|p0 l IH]; intros (p & Hin & Hnone).
  - by apply elem_of_nil in Hin.
  - simpl. rewrite bind_unfold, stat_mtime_eq.
    destruct (stat_of (fs w) p0) as [m|] eqn:Hp0; [|done].
    rewrite bind_unfold, IH; [done|].
    apply elem_of_cons in Hin as [->|Hin]; [congruence|by exists p].
Qed.

(** X8. A child of the base directory that cannot be [stat]ed (a dangling
    link, an entry gone since it was listed) stops [Library.__init__]
    before any comic is built: the sort key raises [FileNotFoundError]. *)
Theorem X8_unstatable_child_aborts `{Platform} (base : string) (w : world)
    (p : Path) :
  p ∈ children (fs w) base →
  stat_of (fs w) p = None →
  Library.__init__ [base] w = (Raise FileNotFoundError, w, []).
Proof.
  intros Hin Hnone. unfold Library.__init__. rewrite bind_unfold. simpl.
  rewrite bind_unfold. unfold Library.discover.
  rewrite (bind_pure _ _ _ _ (glob_star_eq base w)).
  rewrite bind_unfold, with_keys_stat_mtime_raises; [done|]. by exists p.
Qed.

Lemma X8_unstatable_child_aborts_witness :
  @Library.__init__ idle ["lib"] dangling_world
  = (Raise FileNotFoundError, dangling_world, []).
Proof.
  apply (@X8_unstatable_child_aborts idle "lib" dangling_world ("lib", "lost")).
  - vm_compute. repeat constructor.
  - vm_compute. reflexivity.
Defined.

Section stray.
Context `{Platform}.

Lemma __init___regular_file (p : Path) (w : world) (m : Z) :
nodes (fs w) !! p = Some (NonDir false m) →
Comic.__init__ p w = (Raise FileExistsError, w, []).
Proof.
intros E. unfold Comic.__init__. rewrite bind_unfold.
by rewrite (_get_actual_comic_volumes_file
              (Comic.Build_t p ∅ None PyNone false ∅) w m E).
Qed.

Lemma append_comics_regular_file (paths : list Path) (p : Path) (m : Z) :
∀ comics w,
  p ∈ paths →
  nodes (fs w) !! p = Some (NonDir false m) →
  ∃ e w' t, Library.append_comics paths comics w = (Raise e, w', t).
Proof.
induction paths as [|q paths IH]; intros comics w Hin E.
- by apply elem_of_nil in Hin.
- simpl. rewrite bind_unfold.
  destruct (decide (q = p)) as [->|Hq].
  + rewrite (__init___regular_file p w m E). by eexists _, _, _.
  + apply elem_of_cons in Hin as [->|Hin]; [done|].
    destruct (Comic.__init__ q w) as [[[c|e] w1] t1] eqn:Hrun;
      [|by eexists _, _, _].
    destruct (local___init__ q _ _ _ _ Hrun) as [(_ & _ & _ & Hframe) _].
    destruct (IH (comics ++ [c]) w1 Hin) as (e & w2 & t2 & ->).
    * rewrite Hframe by done. exact E.
    * by eexists _, _, _.
Qed.
End stray.

(** X9. A regular file among the children of the base directory makes
    [Library.__init__] raise: for a path that is neither a directory nor a
    link, [_get_actual_comic_volumes] calls [mkdir], which fails on an
    existing file, and nothing catches that. *)
Theorem X9_regular_file_child_aborts `{Platform} (base : string) (w : world)
    (p : Path) (m : Z) :
  p ∈ children (fs w) base →
  nodes (fs w) !! p = Some (NonDir false m) →
  ∃ e w' t, Library.__init__ [base] w = (Raise e, w', t).
Proof.
  intros Hin E. unfold Library.__init__. rewrite bind_unfold. simpl.
  rewrite bind_unfold.
  destruct (Library.discover base w) as [[[paths|e] w1] t1] eqn:Hdisc;
    [|by eexists _, _, _].
  apply discover_returns in Hdisc as (-> & -> & ->).
  destruct (sorted_by_key (node_mtime (fs w)) true (children (fs w) base))
    as (Hperm & _).
  rewrite <- Hperm in Hin.
  rewrite bind_unfold.
  destruct (append_comics_regular_file _ p m [] w Hin E) as (e & w2 & t2 & ->).
  by eexists _, _, _.
Qed.

Lemma X9_regular_file_child_aborts_witness :
  ∃ e w' t, @Library.__init__ idle ["lib"] cluttered_world = (Raise e, w', t).
Proof.
  apply (@X9_regular_file_child_aborts idle "lib" cluttered_world
           ("lib", "README") 3%Z).
  - vm_compute. repeat constructor.
  - vm_compute. reflexivity.
Defined.

(** ** Folders without volumes *)

Lemma _get_actual_comic_volumes_missing `{Platform} (self : Comic.t) (w : world) :
  nodes (fs w) !! Comic.path self = None →
  Comic._get_actual_comic_volumes self w
  = (Ok ∅,
     {| fs := set_nodes (fs w)
                (<[Comic.path self := Dir false (clock (fs w)) empty_folder]>
                   (nodes (fs w)));
        remote := remote w |},
     [Mkdir (Comic.path self)]).
Proof.
  intros E. unfold Comic._get_actual_comic_volumes, is_dir, is_symlink, mkdir.
  run. by repeat (rewrite E; simpl).
Qed.

Lemma _get_actual_comic_volumes_no_dump `{Platform} (self : Comic.t) (w : world)
    r w' t :
  Comic._get_actual_comic_volumes self w = (r, w', t) → Forall no_dump t.
Proof.
  destruct (nodes (fs w) !! Comic.path self) as [[l m d|[] m|]|] eqn:E.
  - rewrite (_get_actual_comic_volumes_dir self w l m d E).
    intros [= <- <- <-]. constructor.
  - rewrite (_get_actual_comic_volumes_symlink self w)
      by (left; by exists m).
    intros [= <- <- <-]. by repeat constructor.
  - rewrite (_get_actual_comic_volumes_file self w m E).
    intros [= <- <- <-]. constructor.
  - rewrite (_get_actual_comic_volumes_symlink self w) by (by right).
    intros [= <- <- <-]. by repeat constructor.
  - rewrite (_get_actual_comic_volumes_missing self w E).
    intros [= <- <- <-]. by repeat constructor.
Qed.

(** X10. For a path at which there is nothing, building the comic makes
    the directory and returns a comic without volumes and without URL;
    nothing else happens. *)
Theorem X10_missing_folder_is_made `{Platform} (p : Path) (w : world) :
  nodes (fs w) !! p = None →
  Comic.__init__ p w
  = (Ok (unfetched p),
     {| fs := set_nodes (fs w)
                (<[p := Dir false (clock (fs w)) empty_folder]> (nodes (fs w)));
        remote := remote w |},
     [Mkdir p]).
Proof.
  intros E. unfold Comic.__init__. rewrite bind_unfold.
  rewrite (_get_actual_comic_volumes_missing
             (Comic.Build_t p ∅ None PyNone false ∅) w E). simpl.
  rewrite (bind_pure _ _ _ _ (get_last_file_empty _)).
  rewrite bind_unfold. unfold Comic._get_url.
  rewrite (bind_pure _ _ _ (Comic.Build_t p ∅ None PyNone false ∅)).
  - simpl. rewrite bool_decide_false by (by intros []). reflexivity.
  - apply _get_url_from_config_absent. simpl.
    unfold config_of, folder_of. simpl. by rewrite lookup_insert_eq.
Qed.

Lemma X10_missing_folder_is_made_witness :
  ∃ w', @Comic.__init__ idle ("lib", "new") vanished_world
        = (Ok (unfetched ("lib", "new")), w', [Mkdir ("lib", "new")])
        ∧ nodes (fs w') !! ("lib", "new") = Some (Dir false 1000 empty_folder).
Proof.
  eexists. split.
  - apply (@X10_missing_folder_is_made idle ("lib", "new") vanished_world).
    vm_compute. reflexivity.
  - vm_compute. reflexivity.
Defined.

(** X11. A title with a URL in its [info.json] and no volume in its folder
    is resolved, and never fetched: updating its comic, in whatever world,
    reports the folder as empty and returns without calling the tool. *)
Theorem X11_no_volume_no_fetch `{Platform} `{!PlatformLaws} (p : Path)
    (w : world) (doc : pyval) (U : string) :
  config_of (fs w) p = Some (Document doc) →
  py_getitem doc "url" = Ok (PyStr U) →
  U ≠ "" →
  scan (fs w) p = ∅ →
  ∃ c,
    Comic.__init__ p w = (Ok c, w, [])
    ∧ Comic.url c = PyStr U
    ∧ ∀ w', Comic.update c w'
            = (Ok c, w', [Echo (MsgFolder p); Echo MsgEmptyFolder]).
Proof.
  intros Hc HU Hne Hscan. exists (configured (fs w) p (PyStr U)).
  split; [|split; [done|]].
  - apply (__init___configured p w doc); [done|done|by apply truthy_PyStr].
  - intros w'. unfold Comic.update. simpl.
    rewrite bool_decide_true by done. reflexivity.
Qed.

Lemma X11_no_volume_no_fetch_witness :
  ∃ c,
    @Comic.__init__ idle foo promised_world = (Ok c, promised_world, [])
    ∧ Comic.url c = PyStr "https://example.test/foo"
    ∧ ∀ w', @Comic.update idle c w'
            = (Ok c, w', [Echo (MsgFolder foo); Echo MsgEmptyFolder]).
Proof.
  apply (@X11_no_volume_no_fetch idle idle_laws foo promised_world
           (PyDict [("url", PyStr "https://example.test/foo")])).
  - vm_compute. reflexivity.
  - reflexivity.
  - discriminate.
  - unfold scan.
    assert (glob_cbz (fs promised_world) foo = []) as -> by (vm_compute; reflexivity).
    reflexivity.
Defined.

(** ** The tool *)

(** X12. A comic with volumes whose URL is the empty string is fetched all
    the same: [update] echoes "No url available" and then calls the tool
    with the empty URL. *)
Theorem X12_empty_url_is_fetched `{Platform} (self : Comic.t) (w : world)
    (f' : filesystem) (r' : Remote) (fault : option exn)
    (l : bool) (m : Z) (d : folder) :
  Comic.url self = PyStr "" →
  Comic.initial_volumes self ≠ ∅ →
  manga_py (call_for self "") (fs w) (remote w) = (f', r', fault) →
  nodes f' !! Comic.path self = Some (Dir l m d) →
  ∃ c' t,
    Comic.update self w
    = (Ok c', {| fs := f'; remote := r' |},
       [Echo (MsgFolder (Comic.path self));
        Echo (MsgUrl (PyStr "") (Comic.last_file self) (Comic.url_from_cbz self));
        Echo MsgNoUrl;
        MangaPy (call_for self "")] ++ t).
Proof.
  intros Hurl Hne Htool E.
  rewrite (update_fetches self w "" f' r' fault l m d Hurl Hne Htool E).
  by eexists _, _.
Qed.

Lemma X12_empty_url_is_fetched_witness :
  ∃ c' t,
    @Comic.update idle nameless_comic emptied_world
    = (Ok c', emptied_world,
       [Echo (MsgFolder foo);
        Echo (MsgUrl (PyStr "") (Comic.last_file nameless_comic) false);
        Echo MsgNoUrl;
        MangaPy (call_for nameless_comic "")] ++ t).
Proof.
  apply (@X12_empty_url_is_fetched idle nameless_comic emptied_world
           (fs emptied_world) tt None false 5%Z emptied_folder).
  - reflexivity.
  - has_volume (foo, "v1.cbz").
  - reflexivity.
  - vm_compute. reflexivity.
Defined.

(** ** The outcomes of resolution *)

Section outcomes.
Context `{Platform}.
Implicit Types (self : Comic.t) (w : world) (p : Path).

Lemma config_step self w self1 w1 t1 :
Comic._get_url_from_config self w = (Ok self1, w1, t1) →
w1 = w ∧ Forall no_dump t1
∧ (self1 = self
   ∨ ∃ doc v, config_of (fs w) (Comic.path self) = Some (Document doc)
              ∧ py_getitem doc "url" = Ok v
              ∧ self1 = Comic.set_url self v ∧ t1 = []).
Proof.
destruct (config_of (fs w) (Comic.path self)) as [[|doc]|] eqn:E.
- rewrite (_get_url_from_config_malformed self w E).
  intros [= <- <- <-]. split; [done|]. split; [by repeat constructor|by left].
- rewrite (_get_url_from_config_document self w doc E).
  destruct (py_getitem doc "url") as [v|[]] eqn:Hv; intros [= <- <- <-].
  + split; [done|]. split; [constructor|]. right. by exists doc, v.
  + split; [done|]. split; [by repeat constructor|by left].
- rewrite (_get_url_from_config_absent self w E).
  intros [= <- <- <-]. split; [done|]. split; [constructor|by left].
Qed.

Lemma cbz_step self w self2 w2 t2 :
Comic._get_url_from_cbz self w = (Ok self2, w2, t2) →
w2 = w ∧ Forall no_dump t2
∧ (self2 = self
   ∨ ∃ g, self2 = Comic.set_url_from_cbz (Comic.set_url self (PyStr g)) true).
Proof.
rewrite _get_url_from_cbz_eq.
destruct (file_named (fs w) (Comic.last_file self)) as [x|]; [|done].
destruct (f_archive x) as [|[[|text]|]]; try done.
- destruct (re_search_site text) as [g|]; intros [= <- <- <-];
    (split; [done|]); (split; [by repeat constructor|]).
  + right. by exists g.
  + by left.
- intros [= <- <- <-]. split; [done|].
  split; [by repeat constructor|by left].
Qed.

(** What [_get_url] has done when it returns, for a comic that had no
  URL yet: it took a true value from [info.json]; or it found nothing
  it counts as a URL and wrote nothing; or it took a non-empty string
  from an archive and dumped it. *)
Lemma _get_url_outcome self w self' w' t :
truthy (Comic.url self) = false →
Comic.url_from_cbz self = false →
Comic._get_url self w = (Ok self', w', t) →
(∃ doc v, config_of (fs w) (Comic.path self) = Some (Document doc)
          ∧ py_getitem doc "url" = Ok v ∧ truthy v = true
          ∧ self' = Comic.set_url self v ∧ w' = w ∧ t = [])
∨ (truthy (Comic.url self') = false ∧ w' = w ∧ Forall no_dump t
   ∧ (Comic.url_from_cbz self' = true →
      Comic.url self' = PyStr "" ∧ Comic.initial_volumes self ≠ ∅))
∨ (∃ g l m d t1,
     g ≠ "" ∧ Comic.url self' = PyStr g ∧ Comic.url_from_cbz self' = true
     ∧ Comic.initial_volumes self ≠ ∅
     ∧ nodes (fs w) !! Comic.path self = Some (Dir l m d)
     ∧ fs w' = with_config (fs w) (Comic.path self) l m d
                 (PyDict [("url", PyStr g)])
     ∧ Forall no_dump t1
     ∧ t = t1 ++ [JsonDump (Comic.path self) (PyDict [("url", PyStr g)]) true 4]).
Proof.
intros Hfalse Hnot. unfold Comic._get_url. rewrite bind_unfold.
destruct (Comic._get_url_from_config self w) as [[[self1|e1] w1] t1] eqn:Hc;
  [|done].
apply config_step in Hc as (-> & Ht1 & Hself1).
assert (Comic.path self1 = Comic.path self
        ∧ Comic.initial_volumes self1 = Comic.initial_volumes self
        ∧ Comic.url_from_cbz self1 = false) as (Hp1 & Hi1 & Hz1).
{ by destruct Hself1 as [->|(doc & v & _ & _ & -> & _)]. }
destruct (truthy (Comic.url self1)) eqn:Htruthy1; simpl.
{ intros [= <- <- <-]. left.
  destruct Hself1 as [->|(doc & v & Hdoc & Hv & -> & ->)]; [congruence|].
  by exists doc, v. }
destruct (bool_decide (Comic.initial_volumes self1 ≠ ∅)) eqn:Hvols.
2:{ intros [= <- <- <-]. right. left. rewrite app_nil_r.
    split; [done|]. split; [done|]. split; [done|].
    intros ?. congruence. }
apply bool_decide_eq_true in Hvols. rewrite Hi1 in Hvols.
rewrite bind_unfold.
destruct (Comic._get_url_from_cbz self1 w) as [[[self2|e2] w2] t2] eqn:Hz;
  [|done].
apply cbz_step in Hz as (-> & Ht2 & [->|[g ->]]).
{ rewrite Htruthy1. intros [= <- <- <-]. right. left. rewrite app_nil_r.
  split; [done|]. split; [done|]. split; [by apply Forall_app|].
  intros ?. congruence. }
simpl. destruct (String.eqb_spec g "") as [->|Hg]; simpl.
{ intros [= <- <- <-]. right. left. rewrite app_nil_r.
  split; [done|]. split; [done|]. split; [by apply Forall_app|].
  by intros _. }
rewrite bind_unfold, Hp1.
destruct (nodes (fs w) !! Comic.path self) as [[l m d| |]|] eqn:E.
- rewrite (json_dump_dir _ _ _ _ _ l m d E). run.
  intros [= <- <- <-]. right. right.
  exists g, l, m, d, (t1 ++ t2). rewrite <- app_assoc.
  repeat split; try done. by apply Forall_app.
- unfold json_dump. run. by rewrite E.
- unfold json_dump. run. by rewrite E.
- unfold json_dump. run. by rewrite E.
Qed.

(** [get_last_file], when it returns, returns an element of the set, or
  nothing for the empty set. *)
Lemma get_last_file_returns `{!PlatformLaws} (paths : gset Volume) w picked w' t :
get_last_file paths w = (Ok picked, w', t) →
w' = w ∧ t = []
∧ (paths = ∅ ∧ picked = None ∨ ∃ v, picked = Some v ∧ v ∈ paths).
Proof.
unfold get_last_file. destruct (decide (paths ≠ ∅)) as [Hne|Hempty].
- rewrite bind_unfold.
  destruct (inert_with_keys stat_volume (set_iter paths) w inert_stat_volume)
    as [[keyed|e] Hkeys]; rewrite Hkeys; [|done].
  destruct (last (sorted false keyed)) as [[k v]|] eqn:Hlast; [|done].
  intros [= <- <- <-]. split; [done|]. split; [done|]. right.
  exists v. split; [done|].
  apply last_Some_elem_of in Hlast. rewrite (sorted_perm false keyed) in Hlast.
  assert (keyed.*2 = set_iter paths) as Hkeyed.
  { clear Hlast Hne. revert keyed Hkeys.
    induction (set_iter paths) as [|x l IH]; intros keyed; simpl.
    - by intros [= <-].
    - rewrite bind_unfold. destruct (inert_stat_volume x w) as [[kx|ex] ->]; [|done].
      rewrite bind_unfold.
      destruct (inert_with_keys stat_volume l w inert_stat_volume)
        as [[keyed'|e'] Hrest]; rewrite Hrest; [|done].
      intros [= <-]. simpl. f_equal. by apply IH. }
  rewrite <- elem_of_elements, <- (set_iter_elements paths), <- Hkeyed.
  apply list_elem_of_fmap. by exists (k, v).
- intros [= <- <- <-]. split; [done|]. split; [done|]. left.
  split; [|done]. by destruct (decide (paths = ∅)) as [|Hne]; [|destruct Hempty].
Qed.

(** [__init__], when it returns, in its three steps. *)
Lemma __init___steps `{!PlatformLaws} p w c w' t :
Comic.__init__ p w = (Ok c, w', t) →
∃ vols last w1 ta self' tu,
  Comic._get_actual_comic_volumes (Comic.Build_t p ∅ None PyNone false ∅) w
  = (Ok vols, w1, ta)
  ∧ Forall no_dump ta
  ∧ (vols = ∅ ∧ last = None ∨ ∃ v, last = Some v ∧ v ∈ vols)
  ∧ Comic._get_url (Comic.Build_t p vols last PyNone false ∅) w1
    = (Ok self', w', tu)
  ∧ c = Comic.set_downloaded_volumes self' ∅
  ∧ t = ta ++ tu.
Proof.
unfold Comic.__init__. rewrite bind_unfold.
destruct (Comic._get_actual_comic_volumes _ w) as [[[vols|e1] w1] ta] eqn:Hscan;
  [|done].
rewrite bind_unfold.
destruct (get_last_file vols w1) as [[[last|e2] w2] t2] eqn:Hlast; [|done].
apply get_last_file_returns in Hlast as (-> & -> & Hlast).
rewrite bind_unfold.
destruct (Comic._get_url _ w1) as [[[self'|e3] w3] tu] eqn:Hurl; [|done].
run. intros [= <- <- <-].
exists vols, last, w1, ta, self', tu. rewrite app_nil_r.
repeat split; try done.
by eapply _get_actual_comic_volumes_no_dump.
Qed.
End outcomes.

Lemma no_dump_not_in (t : list event) q doc sort_keys indent :
  Forall no_dump t → JsonDump q doc sort_keys indent ∉ t.
Proof.
  intros Ht Hin. rewrite Forall_forall in Ht. exact (Ht _ Hin).
Qed.

(** X15. Building a comic writes [info.json] in one case only: the URL was
    taken from an archive and is not empty.  What is dumped then is the
    record with the comic's URL under [url], with sorted keys and an
    indentation of 4, into the comic's own folder and as the last thing
    done, and the folder's [info.json] holds it afterwards. *)
Theorem X15_dump_exactly_when_inferred `{Platform} `{!PlatformLaws}
    (p : Path) (w : world) (c : Comic.t) (w' : world) (t : list event) :
  Comic.__init__ p w = (Ok c, w', t) →
  (∀ q doc sort_keys indent,
     JsonDump q doc sort_keys indent ∈ t →
     q = p ∧ doc = PyDict [("url", Comic.url c)]
     ∧ sort_keys = true ∧ indent = 4%nat
     ∧ Comic.url_from_cbz c = true ∧ truthy (Comic.url c) = true)
  ∧ (Comic.url_from_cbz c = true → truthy (Comic.url c) = true →
     config_of (fs w') p = Some (Document (PyDict [("url", Comic.url c)]))
     ∧ ∃ t1, t = t1 ++ [JsonDump p (PyDict [("url", Comic.url c)]) true 4]
             ∧ Forall no_dump t1).
Proof.
  intros Hinit.
  apply __init___steps in Hinit
    as (vols & picked & w1 & ta & self' & tu & _ & Hta & _ & Hurl & -> & ->).
  apply _get_url_outcome in Hurl as
    [(doc & v & _ & _ & _ & -> & -> & ->)
    |[(Hfalse & -> & Htu & _)
     |(g & l & m & d & t1 & Hg & Hu & Hz & _ & E & Hfs & Ht1 & ->)]];
    [| | |done|done]; simpl in *.
  - split; [|done]. intros q doc' sk ind Hin.
    by destruct (no_dump_not_in (ta ++ []) q doc' sk ind (Forall_app_2 _ _ _ Hta (Forall_nil_2 _))).
  - split; [|congruence]. intros q doc' sk ind Hin.
    by destruct (no_dump_not_in (ta ++ tu) q doc' sk ind (Forall_app_2 _ _ _ Hta Htu)).
  - rewrite Hu in *. split.
    + intros q doc' sk ind Hin. rewrite app_assoc in Hin.
      apply elem_of_app in Hin as [Hin|Hin].
      * by destruct (no_dump_not_in (ta ++ t1) q doc' sk ind
                       (Forall_app_2 _ _ _ Hta Ht1)).
      * apply list_elem_of_singleton in Hin. injection Hin as -> -> -> ->.
        repeat split; try done. by apply truthy_PyStr.
    + intros _ _. split.
      * rewrite Hfs. apply config_of_with_config.
      * exists (ta ++ t1). split; [by rewrite app_assoc|by apply Forall_app].
Qed.

Lemma X15_dump_exactly_when_inferred_witness :
  ∃ c w' t,
    @Comic.__init__ idle foo inferable_world = (Ok c, w', t)
    ∧ (∀ q doc sort_keys indent,
         JsonDump q doc sort_keys indent ∈ t →
         q = foo ∧ doc = PyDict [("url", Comic.url c)]
         ∧ sort_keys = true ∧ indent = 4%nat
         ∧ Comic.url_from_cbz c = true ∧ truthy (Comic.url c) = true)
    ∧ (Comic.url_from_cbz c = true → truthy (Comic.url c) = true →
       config_of (fs w') foo = Some (Document (PyDict [("url", Comic.url c)]))
       ∧ ∃ t1, t = t1 ++ [JsonDump foo (PyDict [("url", Comic.url c)]) true 4]
               ∧ Forall no_dump t1).
Proof.
  assert (∃ c w' t, @Comic.__init__ idle foo inferable_world = (Ok c, w', t))
    as (c & w' & t & Hrun) by (eexists _, _, _; vm_compute; reflexivity).
  exists c, w', t. split; [exact Hrun|].
  exact (@X15_dump_exactly_when_inferred idle idle_laws foo inferable_world
           c w' t Hrun).
Defined.

(** X16. Resolution is stable: when building a comic gave it a URL that
    counts as true, building the comic of the same folder again, in the
    world the first construction left, returns the same URL as taken from
    [info.json], and neither opens an archive nor writes anything. *)
Theorem X16_resolution_is_stable `{Platform} `{!PlatformLaws}
    (p : Path) (w : world) (c : Comic.t) (w' : world) (t : list event) :
  Comic.__init__ p w = (Ok c, w', t) →
  truthy (Comic.url c) = true →
  ∃ c', Comic.__init__ p w' = (Ok c', w', [])
        ∧ Comic.url c' = Comic.url c
        ∧ Comic.url_from_cbz c' = false.
Proof.
  intros Hinit Htruthy.
  apply __init___steps in Hinit
    as (vols & picked & w1 & ta & self' & tu & Hscan & _ & _ & Hurl & -> & ->).
  apply _get_url_outcome in Hurl as
    [(doc & v & Hdoc & Hv & Hvt & -> & -> & ->)
    |[(Hfalse & _)
     |(g & l & m & d & t1 & Hg & Hu & _ & _ & _ & Hfs & _)]];
    [| | |done|done]; simpl in *.
  - exists (configured (fs w1) p v).
    split; [by apply (__init___configured p w1 doc v)|done].
  - congruence.
  - rewrite Hu. exists (configured (fs w') p (PyStr g)). split; [|done].
    apply (__init___configured p w' (PyDict [("url", PyStr g)])).
    + rewrite Hfs. apply config_of_with_config.
    + reflexivity.
    + by apply truthy_PyStr.
Qed.

Lemma X16_resolution_is_stable_witness :
  ∃ c w' t c',
    @Comic.__init__ idle foo inferable_world = (Ok c, w', t)
    ∧ @Comic.__init__ idle foo w' = (Ok c', w', [])
    ∧ Comic.url c' = Comic.url c
    ∧ Comic.url_from_cbz c' = false.
Proof.
  assert (∃ c w' t, @Comic.__init__ idle foo inferable_world = (Ok c, w', t)
                    ∧ truthy (Comic.url c) = true)
    as (c & w' & t & Hrun & Htruthy)
    by (eexists _, _, _; split; [vm_compute; reflexivity|reflexivity]).
  destruct (@X16_resolution_is_stable idle idle_laws foo inferable_world
              c w' t Hrun Htruthy) as (c' & Hagain).
  exists c, w', t, c'. split; [exact Hrun|exact Hagain].
Defined.

Lemma _get_actual_comic_volumes_own `{Platform} (self : Comic.t) (w : world)
    vols w' t :
  Comic._get_actual_comic_volumes self w = (Ok vols, w', t) →
  ∀ v, v ∈ vols → v.1 = Comic.path self.
Proof.
  destruct (nodes (fs w) !! Comic.path self) as [[l m d|[] m|]|] eqn:E.
  - rewrite (_get_actual_comic_volumes_dir self w l m d E).
    intros [= <- <- <-] v Hv. unfold scan, glob_cbz in Hv.
    rewrite elem_of_list_to_set in Hv.
    destruct (folder_of (fs w) (Comic.path self)); [|by apply elem_of_nil in Hv].
    by apply list_elem_of_fmap in Hv as (nf & -> & _).
  - rewrite (_get_actual_comic_volumes_symlink self w)
      by (left; by exists m).
    intros [= <- <- <-] v Hv. by apply elem_of_empty in Hv.
  - by rewrite (_get_actual_comic_volumes_file self w m E).
  - rewrite (_get_actual_comic_volumes_symlink self w) by (by right).
    intros [= <- <- <-] v Hv. by apply elem_of_empty in Hv.
  - rewrite (_get_actual_comic_volumes_missing self w E).
    intros [= <- <- <-] v Hv. by apply elem_of_empty in Hv.
Qed.

(** X17. What a comic is like when [__init__] returns it: it is the comic
    of the path given and has downloaded nothing; its volumes all lie in
    its own folder; its last file is one of its volumes, and there is none
    only when there is no volume; and when its URL is marked as coming
    from an archive, the URL is a string and the comic has volumes. *)
Theorem X17_constructed_comic `{Platform} `{!PlatformLaws}
    (p : Path) (w : world) (c : Comic.t) (w' : world) (t : list event) :
  Comic.__init__ p w = (Ok c, w', t) →
  Comic.path c = p
  ∧ Comic.downloaded_volumes c = ∅
  ∧ (∀ v, v ∈ Comic.initial_volumes c → v.1 = p)
  ∧ (Comic.initial_volumes c = ∅ ∧ Comic.last_file c = None
     ∨ ∃ v, Comic.last_file c = Some v ∧ v ∈ Comic.initial_volumes c)
  ∧ (Comic.url_from_cbz c = true →
     (∃ g, Comic.url c = PyStr g) ∧ Comic.initial_volumes c ≠ ∅).
Proof.
  intros Hinit.
  apply __init___steps in Hinit
    as (vols & picked & w1 & ta & self' & tu & Hscan & _ & Hpicked & Hurl & -> & ->).
  pose proof (_get_actual_comic_volumes_own _ _ _ _ _ Hscan) as Hown.
  pose proof (_get_url_keeps _ _ _ _ _ Hurl) as (Hp & Hi & Hl & _).
  simpl in *. rewrite Hp, Hi, Hl.
  split; [done|]. split; [done|]. split; [done|]. split; [done|].
  intros Hz.
  apply _get_url_outcome in Hurl as
    [(doc & v & _ & _ & _ & -> & _)
    |[(_ & _ & _ & Hblank)
     |(g & l & m & d & t1 & _ & Hu & _ & Hne & _)]];
    [| | |done|done]; simpl in *.
  - done.
  - destruct (Hblank Hz) as [-> Hne]. split; [by eexists|done].
  - split; [by exists g|done].
Qed.

Lemma X17_constructed_comic_witness :
  ∃ c w' t,
    @Comic.__init__ idle foo inferable_world = (Ok c, w', t)
    ∧ Comic.path c = foo
    ∧ Comic.downloaded_volumes c = ∅
    ∧ (∀ v, v ∈ Comic.initial_volumes c → v.1 = foo)
    ∧ (Comic.initial_volumes c = ∅ ∧ Comic.last_file c = None
       ∨ ∃ v, Comic.last_file c = Some v ∧ v ∈ Comic.initial_volumes c)
    ∧ (Comic.url_from_cbz c = true →
       (∃ g, Comic.url c = PyStr g) ∧ Comic.initial_volumes c ≠ ∅).
Proof.
  assert (∃ c w' t, @Comic.__init__ idle foo inferable_world = (Ok c, w', t))
    as (c & w' & t & Hrun) by (eexists _, _, _; vm_compute; reflexivity).
  exists c, w', t. split; [exact Hrun|].
  exact (@X17_constructed_comic idle idle_laws foo inferable_world c w' t Hrun).
Defined.

(** ** What [update] leaves alone *)

Section update_keeps.
Context `{Platform}.

Lemma update_sets_downloaded (self : Comic.t) (w : world) self' w' t :
Comic.update self w = (Ok self', w', t) →
self' = Comic.set_downloaded_volumes self (Comic.downloaded_volumes self').
Proof.
unfold Comic.update. rewrite bind_unfold. simpl.
destruct (bool_decide (Comic.initial_volumes self = ∅)).
- run. intros [= <- <- <-]. by destruct self.
- rewrite bind_unfold. simpl. rewrite bind_unfold.
  destruct (Comic._download_comic self w) as [[[[]|e1] w1] t1]; [|done].
  rewrite bind_unfold.
  destruct (Comic._get_actual_comic_volumes self w1) as [[[vols|e2] w2] t2];
    [|done].
  run. by intros [= <- <- <-].
Qed.

Lemma for_comics_sets_downloaded (todo : list Comic.t) :
∀ max_num num done total w done' total' w' t,
  Library.for_comics max_num num todo done total w = (Ok (done', total'), w', t) →
  ∃ todo',
    done' = done ++ todo'
    ∧ Forall2 (λ c c', c' = Comic.set_downloaded_volumes c
                              (Comic.downloaded_volumes c')) todo todo'.
Proof.
induction todo as [|c todo IH]; intros max_num num done total w done' total' w' t.
- simpl. intros [= <- <- <- <-]. exists []. by rewrite app_nil_r.
- simpl. rewrite bind_unfold. simpl.
  rewrite (bind_pure _ _ _ false) by apply _needs_skip_false.
  rewrite bind_unfold.
  destruct (Comic.update c w) as [[[c'|e1] w1] t1] eqn:Hupdate; [|done].
  apply update_sets_downloaded in Hupdate.
  rewrite bind_unfold. simpl.
  destruct (Library.for_comics max_num (S num) todo (done ++ [c'])
              (total ∪ Comic.downloaded_volumes c') w1)
    as [[[[done2 total2]|e2] w2] t2] eqn:Hrest; [|done].
  intros [= <- <- <- <-].
  apply IH in Hrest as (todo' & -> & Hrel).
  exists (c' :: todo'). split; [by rewrite <- app_assoc|by constructor].
Qed.
End update_keeps.

(** X18. [Library.update] changes nothing of the library but the sets of
    downloaded volumes: the base directories stay, and the comics are the
    same, in the same order, each with its path, its initial volumes, its
    last file, its URL and the origin of its URL as before; no URL is
    resolved again. *)
Theorem X18_update_keeps_the_comics `{Platform} (lib : Library.t) (w : world)
    (lib' : Library.t) (w' : world) (t : list event) :
  Library.update lib w = (Ok lib', w', t) →
  Library.base_dirs lib' = Library.base_dirs lib
  ∧ Forall2 (λ c c', c' = Comic.set_downloaded_volumes c
                            (Comic.downloaded_volumes c'))
      (Library.comics lib) (Library.comics lib').
Proof.
  unfold Library.update. rewrite bind_unfold.
  destruct (Library.for_comics _ 1 (Library.comics lib) [] _ w)
    as [[[[done' total']|e] w2] t2] eqn:Hloop; [|done].
  run. intros [= <- <- <-]. split; [done|]. simpl.
  by apply for_comics_sets_downloaded in Hloop as (todo' & -> & Hrel).
Qed.

Lemma X18_update_keeps_the_comics_witness :
  ∃ lib' w' t,
    @Library.update growing (shelf_library growing) growing_world = (Ok lib', w', t)
    ∧ Library.base_dirs lib' = ["lib"]
    ∧ Forall2 (λ c c', c' = Comic.set_downloaded_volumes c
                              (Comic.downloaded_volumes c'))
        [shelf_comic growing foo; shelf_comic growing bar] (Library.comics lib').
Proof.
  assert (∃ lib' w' t,
            @Library.update growing (shelf_library growing) growing_world
            = (Ok lib', w', t)) as (lib' & w' & t & Hupdate)
    by (eexists _, _, _; vm_compute; reflexivity).
  exists lib', w', t. split; [exact Hupdate|].
  exact (@X18_update_keeps_the_comics growing (shelf_library growing)
           growing_world lib' w' t Hupdate).
Defined.

(** ** The calls of the tool in a run *)

Section fetches.
Context `{Platform}.

Lemma fetches_app (t1 t2 : list event) :
fetches (t1 ++ t2) = fetches t1 ++ fetches t2.
Proof. apply omap_app. Qed.

Lemma fetches_echo (m : message) (t : list event) :
fetches (Echo m :: t) = fetches t.
Proof. done. Qed.

Lemma fetches_construction p (t : list event) :
Forall (construction_event p) t → fetches t = [].
Proof.
induction 1 as [|e t He _ IH]; [done|].
destruct e; simpl in He; try done; exact IH.
Qed.

Lemma _download_comic_fetches (self : Comic.t) (w : world) w' t :
Comic._download_comic self w = (Ok (), w', t) →
fetches t = [request self].
Proof.
unfold Comic._download_comic, sh_manga_py, run_manga_py, request.
destruct (Comic.url self) as [|b|n|s|l|d] eqn:Hurl;
  try (run; discriminate).
all: run.
all: repeat match goal with
       | |- context [manga_py ?a ?f ?r] =>
           destruct (manga_py a f r) as [[? ?] [?|]]; simpl
       | |- context [if ?b then _ else _] => destruct b; simpl
       end.
all: by intros [= <- <-].
Qed.

Lemma update_request (self : Comic.t) (w : world) self' w' t :
Comic.update self w = (Ok self', w', t) →
fetches t = request <$> with_volumes [self].
Proof.
unfold Comic.update, with_volumes. rewrite bind_unfold. simpl.
rewrite filter_cons, filter_nil.
destruct (bool_decide (Comic.initial_volumes self = ∅)) eqn:Hempty.
- apply bool_decide_eq_true in Hempty.
  rewrite decide_False by (intros Hne; by apply Hne).
  run. by intros [= <- <- <-].
- apply bool_decide_eq_false in Hempty. rewrite decide_True by done.
  rewrite bind_unfold. simpl. rewrite bind_unfold.
  destruct (Comic._download_comic self w) as [[[[]|e1] w1] t1] eqn:Hfetch;
    [|done].
  apply _download_comic_fetches in Hfetch.
  rewrite bind_unfold.
  destruct (Comic._get_actual_comic_volumes self w1) as [[[vols|e2] w2] t2]
    eqn:Hscan; [|done].
  apply local__get_actual_comic_volumes in Hscan as [_ Hquiet].
  apply fetches_construction in Hquiet.
  run. intros [= <- <- <-].
  rewrite ?fetches_echo, ?fetches_app, ?fetches_echo, Hfetch, Hquiet.
  by rewrite app_nil_r.
Qed.

Lemma for_comics_requests (todo : list Comic.t) :
∀ max_num num done total w r w' t,
  Library.for_comics max_num num todo done total w = (Ok r, w', t) →
  fetches t = request <$> with_volumes todo.
Proof.
induction todo as [|c todo IH]; intros max_num num done total w r w' t.
- simpl. by intros [= <- <- <-].
- simpl. rewrite bind_unfold. simpl.
  rewrite (bind_pure _ _ _ false) by apply _needs_skip_false.
  rewrite bind_unfold.
  destruct (Comic.update c w) as [[[c'|e1] w1] t1] eqn:Hupdate; [|done].
  apply update_request in Hupdate.
  rewrite bind_unfold. simpl.
  destruct (Library.for_comics max_num (S num) todo (done ++ [c'])
              (total ∪ Comic.downloaded_volumes c') w1)
    as [[[r2|e2] w2] t2] eqn:Hrest; [|done].
  apply IH in Hrest.
  run. intros [= <- <- <-].
  rewrite ?fetches_echo, ?fetches_app, ?fetches_echo, Hupdate, Hrest.
  change (c :: todo) with ([c] ++ todo).
  unfold with_volumes. by rewrite filter_app, fmap_app.
Qed.
End fetches.

(** X19. In a run of [Library.update] that comes to its end, the tool is
    called once for every comic that had volumes when it was constructed,
    in the order of the library, and for no other comic; each call names
    the parent of the comic's folder as destination, the folder's name,
    the comic's URL and the preferred options, and types the preferred
    language on the tool's input exactly when the URL contains
    [mangadex]. *)
Theorem X19_one_fetch_per_comic `{Platform} (lib : Library.t) (w : world)
    (lib' : Library.t) (w' : world) (t : list event) :
  Library.update lib w = (Ok lib', w', t) →
  fetches t = request <$> with_volumes (Library.comics lib).
Proof.
  unfold Library.update. rewrite bind_unfold.
  destruct (Library.for_comics _ 1 (Library.comics lib) [] _ w)
    as [[[r|e] w2] t2] eqn:Hloop; [|done].
  apply for_comics_requests in Hloop.
  run. intros [= <- <- <-].
  rewrite fetches_app, Hloop. by rewrite app_nil_r.
Qed.

Lemma X19_one_fetch_per_comic_witness :
  ∃ lib' w' t,
    @Library.update growing (shelf_library growing) growing_world = (Ok lib', w', t)
    ∧ fetches t = request <$> with_volumes [shelf_comic growing foo;
                                            shelf_comic growing bar].
Proof.
  assert (∃ lib' w' t,
            @Library.update growing (shelf_library growing) growing_world
            = (Ok lib', w', t)) as (lib' & w' & t & Hupdate)
    by (eexists _, _, _; vm_compute; reflexivity).
  exists lib', w', t. split; [exact Hupdate|].
  exact (@X19_one_fetch_per_comic growing (shelf_library growing)
           growing_world lib' w' t Hupdate).
Defined.

(** ** C7: symbolic links *)

Section links.
Context `{Platform}.
Implicit Types (self : Comic.t) (w : world) (p : Path).


End links.



